(** * SolarSimulator: the simulation and scaling engine of [main.py]

    A shallow embedding of [CelestialBody] and [SolarSystem]: the orbital
    update, the three scale modes, the bounded trail lists and the UI
    callbacks that change the simulation state.

    Numbers.  Python's [int] and [float] values are idealised as real
    numbers ([R]); rounding is not modelled.  [np.pi] is [PI], [np.cos] and
    [np.sin] are [cos] and [sin].  What the code does on the value 0 (a
    division by zero raising [ZeroDivisionError], a power of zero, the
    explicit [distance == 0] guard) is written out. *)

From Stdlib Require Import Reals Lra Lia List.
From stdpp Require Import gmap strings list fin_maps.

#[local] Open Scope R_scope.

(** ** Numeric primitives *)

Module Np.

(** A point, [np.array([x, y, z])]. *)
Definition vec3 : Type := (R * R * R)%type.

Definition vx (p : vec3) : R := fst (fst p).
Definition vy (p : vec3) : R := snd (fst p).
Definition vz (p : vec3) : R := snd p.

(** [pos * np.array([a, b, c])]: the component-wise product. *)
Definition vmul (p q : vec3) : vec3 := (vx p * vx q, vy p * vy q, vz p * vz q).

(** [np.radians(deg)]. *)
Definition radians (deg : R) : R := deg * PI / 180.

(** [np.log10(x)], for [x > 0]. *)
Definition log10 (x : R) : R := ln x / ln 10.

(** [x ** y] for [x >= 0] and [y > 0]: zero to a positive power is zero. *)
Definition pow (x y : R) : R :=
  if Req_dec_T x 0 then 0 else Rpower x y.

(** [np.random.uniform(low, high)]: [u] is the sample the generator draws
    from the half-open unit interval. *)
Definition random_uniform (low high u : R) : R := low + (high - low) * u.

End Np.

(** ** Exceptions *)

Inductive exn : Type :=
| ZeroDivisionError.

Inductive result (A : Type) : Type :=
| Ok (a : A)
| Raise (e : exn).
Arguments Ok {A} a.
Arguments Raise {A} e.

Definition bind {A B : Type} (r : result A) (k : A -> result B) : result B :=
  match r with
  | Ok a => k a
  | Raise e => Raise e
  end.

Notation "'try!' x ':=' r 'in' k" := (bind r (fun x => k))
  (at level 10, x pattern, r at level 100, k at level 200).

(** [a / b] on Python numbers: a zero divisor raises, whether it is the
    [int] 0 or the [float] 0.0. *)
Definition py_div (a b : R) : result R :=
  if Req_dec_T b 0 then Raise ZeroDivisionError else Ok (a / b).

(** ** CelestialBody *)

Record CelestialBody : Type := mkBody {
  name : string;
  radius : R;            (* km *)
  distance : R;          (* AU *)
  orbital_period : R;    (* days *)
  color : string;
  tilt : R;              (* radians *)
  angle : R;
  position : Np.vec3
}.

(** One row of [bodies_data]:
    (name, radius_km, distance_AU, period_days, color, tilt_degrees). *)
Definition body_data : Type := (string * R * R * R * string * R)%type.

(** [CelestialBody.__init__]; [u] is the sample drawn by
    [np.random.uniform]. *)
Definition CelestialBody_init (data : body_data) (u : R) : CelestialBody :=
  let '(name, radius, distance, orbital_period, color, tilt) := data in
  {| name := name;
     radius := radius;
     distance := distance;
     orbital_period := orbital_period;
     color := color;
     tilt := Np.radians tilt;
     angle := Np.random_uniform 0 (2 * PI) u;
     position := (0, 0, 0) |}.

Definition set_motion (b : CelestialBody) (a : R) (p : Np.vec3) : CelestialBody :=
  {| name := name b;
     radius := radius b;
     distance := distance b;
     orbital_period := orbital_period b;
     color := color b;
     tilt := tilt b;
     angle := a;
     position := p |}.

(** [CelestialBody.update_position]: the body after the call and the
    position returned. *)
Definition update_position (b : CelestialBody) (time_step : R)
  : result (CelestialBody * Np.vec3) :=
  try! angular_velocity := py_div (2 * PI) (orbital_period b) in
  let angle' := angle b + angular_velocity * time_step in
  let x := distance b * cos angle' in
  let y := distance b * sin angle' in
  let z := y * sin (tilt b) in
  let y := y * cos (tilt b) in
  Ok (set_motion b angle' (x, y, z), (x, y, z)).

(** ** SolarSystem *)

Record SolarSystem : Type := mkSystem {
  scale_mode : string;
  time_step : R;                          (* days per frame *)
  bodies : list CelestialBody;
  trails : gmap string (list Np.vec3);    (* orbital trails, by body name *)
  trail_length : nat;
  paused : bool;
  show_orbits : bool;
  show_labels : bool
}.

(** The random generator behind [np.random.uniform]: its successive
    samples, each in the half-open unit interval. *)
Definition rng : Type := nat -> R.

Definition samples_in_range (g : rng) : Prop := forall k, 0 <= g k < 1.

(** The table of [_initialize_bodies]. *)
Definition bodies_data : list body_data :=
  [ ("Sun", 696000, 0, 0, "#FDB813", 0);
    ("Mercury", 2440, 0.39, 88, "#8C7853", 7.0);
    ("Venus", 6052, 0.72, 225, "#FFC649", 3.4);
    ("Earth", 6371, 1.0, 365, "#4169E1", 0.0);
    ("Mars", 3390, 1.52, 687, "#CD5C5C", 1.9);
    ("Jupiter", 69911, 5.20, 4333, "#DAA520", 1.3);
    ("Saturn", 58232, 9.54, 10759, "#F4A460", 2.5);
    ("Uranus", 25362, 19.19, 30687, "#4FD0E0", 0.8);
    ("Neptune", 24622, 30.07, 60190, "#4169E1", 1.8) ]%string.

(** The [for data in bodies_data] loop of [_initialize_bodies], from the
    [k]-th sample of the generator on; [bodies] and [trails] are
    [self.bodies] and [self.trails] so far. *)
Fixpoint initialize_loop (g : rng) (k : nat) (data : list body_data)
    (bodies : list CelestialBody) (trails : gmap string (list Np.vec3))
  : list CelestialBody * gmap string (list Np.vec3) :=
  match data with
  | [] => (bodies, trails)
  | d :: rest =>
      let body := CelestialBody_init d (g k) in
      let bodies := bodies ++ [body] in
      let trails :=
        if decide (name body <> "Sun"%string) then <[name body := []]> trails
        else trails in
      initialize_loop g (S k) rest bodies trails
  end.

(** [SolarSystem.__init__] over a table [data]; the source fixes the table
    to [bodies_data]. *)
Definition SolarSystem_init_with (data : list body_data) (scale_mode : string)
    (g : rng) : SolarSystem :=
  let '(bodies, trails) := initialize_loop g 0 data [] ∅ in
  {| scale_mode := scale_mode;
     time_step := 1;
     bodies := bodies;
     trails := trails;
     trail_length := 100;
     paused := false;
     show_orbits := true;
     show_labels := true |}.

Definition SolarSystem_init (scale_mode : string) (g : rng) : SolarSystem :=
  SolarSystem_init_with bodies_data scale_mode g.

(** [SolarSystem.get_scaled_radius]. *)
Definition get_scaled_radius (self : SolarSystem) (radius : R) : R :=
  if decide (scale_mode self = "realistic"%string) then
    radius / 100000
  else if decide (scale_mode self = "logarithmic"%string) then
    0.02 + Np.log10 radius * 0.01
  else
    0.05 + (radius / 100000) * 2.

(** [SolarSystem.get_scaled_distance]. *)
Definition get_scaled_distance (self : SolarSystem) (distance : R) : R :=
  if decide (scale_mode self = "realistic"%string) then
    distance
  else if decide (scale_mode self = "logarithmic"%string) then
    if Req_dec_T distance 0 then 0
    else Np.log10 (distance * 10 + 1) * 3
  else
    Np.pow distance 0.7 * 5.

(** The trail update of [SolarSystem.update] on one list: [append], then
    [pop(0)] when the list is longer than [trail_length]. *)
Definition push_trail (trail_length : nat) (trail : list Np.vec3) (p : Np.vec3)
  : list Np.vec3 :=
  let trail := trail ++ [p] in
  if (trail_length <? length trail)%nat then tail trail else trail.

(** [if body.name in self.trails: ...] *)
Definition update_trail (trail_length : nat)
    (trails : gmap string (list Np.vec3)) (body : CelestialBody)
  : gmap string (list Np.vec3) :=
  match trails !! name body with
  | Some trail => <[name body := push_trail trail_length trail (position body)]> trails
  | None => trails
  end.

(** The [for body in self.bodies[1:]] loop of [SolarSystem.update]: the
    bodies as the loop leaves them and the trails.  When a call raises, the
    exception leaves the loop and [update]; the bodies already moved in that
    call are not part of the result. *)
Fixpoint update_loop (time_step : R) (trail_length : nat)
    (bs : list CelestialBody) (trails : gmap string (list Np.vec3))
  : result (list CelestialBody * gmap string (list Np.vec3)) :=
  match bs with
  | [] => Ok ([], trails)
  | body :: rest =>
      try! moved := update_position body time_step in
      let body := fst moved in
      let trails := update_trail trail_length trails body in
      try! done := update_loop time_step trail_length rest trails in
      Ok (body :: fst done, snd done)
  end.

Definition set_bodies_trails (self : SolarSystem) (bs : list CelestialBody)
    (tr : gmap string (list Np.vec3)) : SolarSystem :=
  {| scale_mode := scale_mode self;
     time_step := time_step self;
     bodies := bs;
     trails := tr;
     trail_length := trail_length self;
     paused := paused self;
     show_orbits := show_orbits self;
     show_labels := show_labels self |}.

(** [SolarSystem.update]; [frame] is not used. *)
Definition update (self : SolarSystem) (frame : nat) : result SolarSystem :=
  if negb (paused self) then
    try! done := update_loop (time_step self) (trail_length self)
                   (drop 1 (bodies self)) (trails self) in
    Ok (set_bodies_trails self (take 1 (bodies self) ++ fst done) (snd done))
  else
    Ok self.

(** *** Rendering data of [draw_frame] *)

(** [self.get_scaled_distance(1) / 1] *)
Definition scale_ratio (self : SolarSystem) : R := get_scaled_distance self 1 / 1.

(** [scaled_pos = pos * np.array([ratio, ratio, ratio])] *)
Definition scaled_pos (self : SolarSystem) (pos : Np.vec3) : Np.vec3 :=
  Np.vmul pos (scale_ratio self, scale_ratio self, scale_ratio self).

(** [scaled_trail = trail * np.array([ratio, ratio, ratio])] *)
Definition scaled_trail (self : SolarSystem) (trail : list Np.vec3) : list Np.vec3 :=
  scaled_pos self <$> trail.

(** *** The controls of [visualize_interactive] *)

(** The state of a [matplotlib.widgets.Slider] that the code reads. *)
Record Slider : Type := mkSlider {
  valmin : R;
  valmax : R;
  valstep : R;
  val : R
}.

(** [Slider(ax_speed, 'Speed', 0.1, 10.0, valinit=1.0, valstep=0.1)], when
    its current value is [v]. *)
Definition slider_speed (v : R) : Slider :=
  {| valmin := 0.1; valmax := 10.0; valstep := 0.1; val := v |}.

Definition toggle_pause (self : SolarSystem) : SolarSystem :=
  {| scale_mode := scale_mode self;
     time_step := time_step self;
     bodies := bodies self;
     trails := trails self;
     trail_length := trail_length self;
     paused := negb (paused self);
     show_orbits := show_orbits self;
     show_labels := show_labels self |}.

Definition toggle_orbits (self : SolarSystem) : SolarSystem :=
  {| scale_mode := scale_mode self;
     time_step := time_step self;
     bodies := bodies self;
     trails := trails self;
     trail_length := trail_length self;
     paused := paused self;
     show_orbits := negb (show_orbits self);
     show_labels := show_labels self |}.

Definition toggle_labels (self : SolarSystem) : SolarSystem :=
  {| scale_mode := scale_mode self;
     time_step := time_step self;
     bodies := bodies self;
     trails := trails self;
     trail_length := trail_length self;
     paused := paused self;
     show_orbits := show_orbits self;
     show_labels := negb (show_labels self) |}.

(** [update_speed(val)]: the argument is not used, the slider is read. *)
Definition update_speed (self : SolarSystem) (slider : Slider) (_ : R)
  : SolarSystem :=
  {| scale_mode := scale_mode self;
     time_step := val slider;
     bodies := bodies self;
     trails := trails self;
     trail_length := trail_length self;
     paused := paused self;
     show_orbits := show_orbits self;
     show_labels := show_labels self |}.

(** What the animation timer and the widgets do to the system. *)
Inductive event : Type :=
| DrawFrame (frame : nat)       (* [draw_frame(frame)] calls [self.update(frame)] *)
| PauseClicked
| OrbitsClicked
| LabelsClicked
| SpeedChanged (v : R).         (* the slider moved to [v] *)

Definition handle (self : SolarSystem) (ev : event) : result SolarSystem :=
  match ev with
  | DrawFrame frame => update self frame
  | PauseClicked => Ok (toggle_pause self)
  | OrbitsClicked => Ok (toggle_orbits self)
  | LabelsClicked => Ok (toggle_labels self)
  | SpeedChanged v => Ok (update_speed self (slider_speed v) v)
  end.

Fixpoint run (self : SolarSystem) (evs : list event) : result SolarSystem :=
  match evs with
  | [] => Ok self
  | ev :: rest => try! self := handle self ev in run self rest
  end.

(** *** [main]: the menu choice *)

(** [scale_modes.get(choice, 'logarithmic')], [choice] already stripped. *)
Definition scale_modes : gmap string string :=
  <["1" := "realistic"]> (<["2" := "logarithmic"]> (<["3" := "artistic"]>
    (<["" := "logarithmic"]> ∅)))%string.

Definition scale_mode_of_choice (choice : string) : string :=
  default "logarithmic"%string (scale_modes !! choice).

(** ** Specification-level definitions *)

(** The body [update_position] leaves behind when it does not raise. *)
Definition moved (time_step : R) (b : CelestialBody) : CelestialBody :=
  let a := angle b + (2 * PI / orbital_period b) * time_step in
  set_motion b a
    (distance b * cos a,
     distance b * sin a * cos (tilt b),
     distance b * sin a * sin (tilt b)).

(** What [__init__] fixes for good: everything but angle and position. *)
Definition constants (b : CelestialBody) : body_data :=
  (name b, radius b, distance b, orbital_period b, color b, tilt b).

(** The position of the [i]-th body of the list. *)
Definition position_at (self : SolarSystem) (i : nat) : option Np.vec3 :=
  position <$> bodies self !! i.

(** Whether [ev] makes [update] run its loop on [self]. *)
Definition advances (self : SolarSystem) (ev : event) : bool :=
  match ev with
  | DrawFrame _ => negb (paused self)
  | _ => false
  end.

(** The points the events [evs] push for the [i]-th body, oldest first:
    its position right after each call of [update] that was not paused. *)
Fixpoint pushed_points (self : SolarSystem) (i : nat) (evs : list event)
  : list Np.vec3 :=
  match evs with
  | [] => []
  | ev :: rest =>
      match handle self ev with
      | Ok self' =>
          match advances self ev, position_at self' i with
          | true, Some p => p :: pushed_points self' i rest
          | _, _ => pushed_points self' i rest
          end
      | Raise _ => []
      end
  end.

(** Accessors of a row of the table. *)
Definition data_name (d : body_data) : string :=
  let '(name, _, _, _, _, _) := d in name.

(** The state one unpaused [update] leads to when no period is zero. *)
Definition stepped (self : SolarSystem) : SolarSystem :=
  let rest := moved (time_step self) <$> drop 1 (bodies self) in
  set_bodies_trails self (take 1 (bodies self) ++ rest)
    (fold_left (update_trail (trail_length self)) rest (trails self)).

(** What holds of the system from its construction on: no body after the
    first has period zero, their names are distinct, each of them has a
    trail, and no trail is longer than [trail_length]. *)
Definition healthy (self : SolarSystem) : Prop :=
  Forall (fun b => orbital_period b <> 0) (drop 1 (bodies self))
  /\ NoDup (name <$> drop 1 (bodies self))
  /\ Forall (fun b => is_Some (trails self !! name b)) (drop 1 (bodies self))
  /\ map_Forall (fun _ t => (length t <= trail_length self)%nat) (trails self).

(** What no event changes: the first body, the constants of every body,
    the capacity, the scale mode and the set of names that have a trail. *)
Definition same_frame (self self' : SolarSystem) : Prop :=
  bodies self' !! 0%nat = bodies self !! 0%nat
  /\ constants <$> bodies self' = constants <$> bodies self
  /\ trail_length self' = trail_length self
  /\ scale_mode self' = scale_mode self
  /\ forall k, is_Some (trails self' !! k) <-> is_Some (trails self !! k).

(** The three scale modes the docstring of [__init__] names. *)
Definition known_modes : list string :=
  ["realistic"; "logarithmic"; "artistic"]%string.

(** The radii (km) and distances (AU) of the table, in increasing order. *)
Definition catalog_radii : list R :=
  [2440; 3390; 6052; 6371; 24622; 25362; 58232; 69911; 696000].

Definition catalog_distances : list R :=
  [0; 0.39; 0.72; 1.0; 1.52; 5.20; 9.54; 19.19; 30.07].

(** ** Rendering geometry of [create_sphere] and [draw_frame] *)

(** [np.linspace(start, stop, num)], end point included: [num] samples,
    the [i]-th at [i * step + start], the last one set to [stop]. *)
Definition linspace (start stop : R) (num : nat) : list R :=
  let div := (num - 1)%nat in
  let delta := stop - start in
  let y :=
    (fun i : nat =>
       (if decide (0 < div)%nat then INR i * (delta / INR div)
        else INR i * delta) + start) <$> seq 0 num in
  if decide (1 < num)%nat then <[(num - 1)%nat := stop]> y else y.

(** A two-dimensional array, by rows. *)
Definition matrix : Type := list (list R).

(** [np.outer(a, b)] *)
Definition outer (a b : list R) : matrix :=
  (fun ai => (fun bj => ai * bj) <$> b) <$> a.

(** [k * m + c] on an array. *)
Definition scale_shift (k : R) (m : list (list R)) (c : R) : matrix :=
  (fun row : list R => (fun e => k * e + c) <$> row) <$> m.

(** The entry [m[i][j]]. *)
Definition entry (m : list (list R)) (i j : nat) : option R :=
  row ← m !! i; row !! j.

(** [SolarSystem.create_sphere]; [self] is not used. *)
Definition create_sphere (radius : R) (center : Np.vec3) (resolution : nat)
  : matrix * matrix * matrix :=
  let u := linspace 0 (2 * PI) resolution in
  let v := linspace 0 PI resolution in
  let x := scale_shift radius (outer (cos <$> u) (sin <$> v)) (Np.vx center) in
  let y := scale_shift radius (outer (sin <$> u) (sin <$> v)) (Np.vy center) in
  let z := scale_shift radius (outer (replicate (length u) 1) (cos <$> v))
             (Np.vz center) in
  (x, y, z).

(** The orbital path [draw_frame] plots for [body]:
    [(orbit_x, orbit_y, orbit_z)]. *)
Definition orbit_points : nat := 100.

Definition orbit_path (self : SolarSystem) (body : CelestialBody)
  : list R * list R * list R :=
  let angles := linspace 0 (2 * PI) orbit_points in
  let distance := get_scaled_distance self (distance body) in
  let orbit_x := (fun a => distance * cos a) <$> angles in
  let orbit_y := (fun a => distance * sin a * cos (tilt body)) <$> angles in
  let orbit_z := (fun a => distance * sin a * sin (tilt body)) <$> angles in
  (orbit_x, orbit_y, orbit_z).

(** Python's [max] of a list: the first item, replaced by each later item
    that is greater.  [None] stands for the [ValueError] on an empty list. *)
Definition py_max (l : list R) : option R :=
  match l with
  | [] => None
  | x :: rest => Some (fold_left (fun m y => if Rlt_dec m y then y else m) rest x)
  end.

(** [max_distance] of [visualize_interactive]. *)
Definition max_distance (self : SolarSystem) : option R :=
  py_max ((fun b => get_scaled_distance self (distance b)) <$> bodies self).

(** ** More specification-level definitions *)

(** The squared distance of a point from the origin. *)
Definition norm2 (p : Np.vec3) : R :=
  Np.vx p * Np.vx p + Np.vy p * Np.vy p + Np.vz p * Np.vz p.

(** [p] lies on the orbit of [b]: at distance [distance b] from the
    origin, in the plane tilted by [tilt b] about the x axis. *)
Definition on_orbit (b : CelestialBody) (p : Np.vec3) : Prop :=
  norm2 p = distance b * distance b
  /\ Np.vy p * sin (tilt b) = Np.vz p * cos (tilt b).

(** The part of the state the simulation reads and writes: all but the
    two visibility flags. *)
Definition simulation_state (self : SolarSystem)
  : string * R * list CelestialBody * gmap string (list Np.vec3) * nat * bool :=
  (scale_mode self, time_step self, bodies self, trails self,
   trail_length self, paused self).

Definition is_visibility (ev : event) : bool :=
  match ev with
  | OrbitsClicked | LabelsClicked => true
  | _ => false
  end.

Definition result_map {A B : Type} (f : A -> B) (r : result A) : result B :=
  match r with
  | Ok a => Ok (f a)
  | Raise e => Raise e
  end.

(** Every point stored in the trail of a body after the first lies on
    that body's orbit. *)
Definition trails_on_orbit (self : SolarSystem) : Prop :=
  forall (i : nat) (b : CelestialBody) (t : list Np.vec3),
    bodies self !! S i = Some b ->
    trails self !! name b = Some t ->
    Forall (on_orbit b) t.

(** ** The speed slider as the spec describes it *)

(** Modelled from the spec: what the slider widget does with a requested
    value.  The widget is matplotlib's [Slider], whose code is not in the
    repository; the spec's [set_speed(v)] "clamps/accepts v in [0.1, 10.0]"
    and the result "becomes the new per-tick time-step".  The value grid of
    [valstep] is the widget's own matter and the spec does not describe
    it. *)
Definition value_in_bounds (slider : Slider) (v : R) : R :=
  if Rle_dec v (valmin slider) then valmin slider
  else if Rle_dec (valmax slider) v then valmax slider
  else v.

(** The slider after a request for the value [v]. *)
Definition slider_moved (slider : Slider) (v : R) : Slider :=
  {| valmin := valmin slider;
     valmax := valmax slider;
     valstep := valstep slider;
     val := value_in_bounds slider v |}.

(** The spec's [set_speed(v)]: the slider of [visualize_interactive] is
    asked for [v] and calls [update_speed] with the value it took. *)
Definition set_speed (self : SolarSystem) (v : R) : SolarSystem :=
  let slider := slider_moved (slider_speed 1.0) v in
  update_speed self slider (val slider).

(** ** Theorems *)

(** *** Division and [update_position] *)

Lemma py_div_nonzero (a b : R) : b <> 0 -> py_div a b = Ok (a / b).
Proof.
  intros Hb. unfold py_div. destruct (Req_dec_T b 0); [contradiction | reflexivity].
Qed.

Lemma py_div_zero (a : R) : py_div a 0 = Raise ZeroDivisionError.
Proof.
  unfold py_div. destruct (Req_dec_T 0 0) as [_ | Hne]; [reflexivity | now destruct Hne].
Qed.

Lemma update_position_nonzero (b : CelestialBody) (dt : R) :
  orbital_period b <> 0 ->
  update_position b dt = Ok (moved dt b, position (moved dt b)).
Proof.
  intros Hp. unfold update_position. rewrite py_div_nonzero by assumption.
  reflexivity.
Qed.

Lemma update_position_zero (b : CelestialBody) (dt : R) :
  orbital_period b = 0 ->
  update_position b dt = Raise ZeroDivisionError.
Proof.
  intros Hp. unfold update_position. rewrite Hp, py_div_zero. reflexivity.
Qed.

Lemma constants_moved (dt : R) (b : CelestialBody) :
  constants (moved dt b) = constants b.
Proof. reflexivity. Qed.

(** *** The bounded trail list *)

Section Trail.

Variable cap : nat.

Lemma push_trail_drop (t : list Np.vec3) (p : Np.vec3) :
  (length t <= cap)%nat ->
  push_trail cap t p = drop (length t + 1 - cap) (t ++ [p]).
Proof.
  intros Hlen. unfold push_trail.
  rewrite length_app. cbn [length].
  destruct (Nat.ltb_spec cap (length t + 1)) as [Hlt | Hge].
  - replace (length t + 1 - cap)%nat with 1%nat by lia.
    destruct (t ++ [p]); reflexivity.
  - replace (length t + 1 - cap)%nat with 0%nat by lia. reflexivity.
Qed.

Lemma push_trail_length (t : list Np.vec3) (p : Np.vec3) :
  (length t <= cap)%nat ->
  length (push_trail cap t p) = Nat.min (S (length t)) cap.
Proof.
  intros Hlen. rewrite push_trail_drop by assumption.
  rewrite length_drop, length_app. cbn [length]. lia.
Qed.

Lemma push_trail_bounded (t : list Np.vec3) (p : Np.vec3) :
  (length t <= cap)%nat -> (length (push_trail cap t p) <= cap)%nat.
Proof. intros Hlen. rewrite push_trail_length by assumption. lia. Qed.

(** Pushing [ps] one after the other keeps the newest [cap] points. *)
Lemma push_trail_fold (ps t : list Np.vec3) :
  (length t <= cap)%nat ->
  fold_left (push_trail cap) ps t
  = drop (length t + length ps - cap) (t ++ ps).
Proof.
  revert t. induction ps as [| p ps IH]; intros t Hlen.
  - cbn [fold_left length]. rewrite app_nil_r.
    replace (length t + 0 - cap)%nat with 0%nat by lia. reflexivity.
  - cbn [fold_left]. rewrite IH by (apply push_trail_bounded; assumption).
    rewrite push_trail_length by assumption.
    rewrite push_trail_drop by assumption.
    rewrite <- drop_app_le by (rewrite length_app; cbn [length]; lia).
    rewrite drop_drop, <- app_assoc. cbn [app length].
    f_equal. lia.
Qed.

Lemma push_trail_fold_bounded (ps t : list Np.vec3) :
  (length t <= cap)%nat ->
  (length (fold_left (push_trail cap) ps t) <= cap)%nat.
Proof.
  intros Hlen. rewrite push_trail_fold by assumption.
  rewrite length_drop, length_app. lia.
Qed.

End Trail.

(** *** The loop of [update] *)

Section UpdateLoop.

Variables (dt : R) (cap : nat).

Lemma update_loop_ok (bs : list CelestialBody) (tr : gmap string (list Np.vec3)) :
  Forall (fun b => orbital_period b <> 0) bs ->
  update_loop dt cap bs tr
  = Ok (moved dt <$> bs, fold_left (update_trail cap) (moved dt <$> bs) tr).
Proof.
  intros Hall. revert tr. induction Hall as [| b bs Hb _ IH]; intros tr.
  - reflexivity.
  - cbn [update_loop]. rewrite update_position_nonzero by assumption.
    cbn [bind fst]. rewrite IH. reflexivity.
Qed.

Lemma update_loop_zero (bs : list CelestialBody) (tr : gmap string (list Np.vec3)) :
  Exists (fun b => orbital_period b = 0) bs ->
  update_loop dt cap bs tr = Raise ZeroDivisionError.
Proof.
  revert tr. induction bs as [| b bs IH]; intros tr Hex.
  - inversion Hex.
  - cbn [update_loop].
    destruct (Req_dec_T (orbital_period b) 0) as [Hz | Hnz].
    + rewrite update_position_zero by assumption. reflexivity.
    + rewrite update_position_nonzero by assumption. cbn [bind fst].
      rewrite IH; [reflexivity |].
      inversion Hex; subst; [contradiction | assumption].
Qed.

(** A trail is only ever replaced, never created or removed. *)
Lemma update_trail_is_Some (tr : gmap string (list Np.vec3))
    (b : CelestialBody) (k : string) :
  is_Some (update_trail cap tr b !! k) <-> is_Some (tr !! k).
Proof.
  unfold update_trail. destruct (tr !! name b) as [t |] eqn:Hb; [| reflexivity].
  destruct (decide (name b = k)) as [<- | Hne].
  - rewrite lookup_insert_eq, Hb. split; eauto.
  - rewrite lookup_insert_ne by assumption. reflexivity.
Qed.

Lemma update_trail_other (tr : gmap string (list Np.vec3))
    (b : CelestialBody) (k : string) :
  name b <> k -> update_trail cap tr b !! k = tr !! k.
Proof.
  intros Hne. unfold update_trail. destruct (tr !! name b); [| reflexivity].
  apply lookup_insert_ne; assumption.
Qed.

Lemma update_trail_same (tr : gmap string (list Np.vec3))
    (b : CelestialBody) :
  update_trail cap tr b !! name b
  = (fun t => push_trail cap t (position b)) <$> tr !! name b.
Proof.
  unfold update_trail. destruct (tr !! name b) as [t |] eqn:Hb.
  - rewrite lookup_insert_eq. reflexivity.
  - rewrite Hb. reflexivity.
Qed.

Lemma update_trails_is_Some (bs : list CelestialBody)
    (tr : gmap string (list Np.vec3)) (k : string) :
  is_Some (fold_left (update_trail cap) bs tr !! k) <-> is_Some (tr !! k).
Proof.
  revert tr. induction bs as [| b bs IH]; intros tr; [reflexivity |].
  cbn [fold_left]. rewrite IH. apply update_trail_is_Some.
Qed.

Lemma update_trails_other (bs : list CelestialBody)
    (tr : gmap string (list Np.vec3)) (k : string) :
  k ∉ name <$> bs ->
  fold_left (update_trail cap) bs tr !! k = tr !! k.
Proof.
  revert tr. induction bs as [| b bs IH]; intros tr Hk; [reflexivity |].
  cbn [fold_left]. rewrite fmap_cons, not_elem_of_cons in Hk.
  destruct Hk as [Hne Hk].
  rewrite IH by assumption. apply update_trail_other. congruence.
Qed.

(** With distinct names, one pass pushes exactly one point per trail:
    the position of the body of that name. *)
Lemma update_trails_at (bs : list CelestialBody)
    (tr : gmap string (list Np.vec3)) (i : nat) (b : CelestialBody) :
  NoDup (name <$> bs) ->
  bs !! i = Some b ->
  fold_left (update_trail cap) bs tr !! name b
  = (fun t => push_trail cap t (position b)) <$> tr !! name b.
Proof.
  revert tr i. induction bs as [| b0 bs IH]; intros tr i Hnd Hi.
  - discriminate.
  - rewrite fmap_cons in Hnd. apply NoDup_cons in Hnd as [Hfresh Hnd].
    cbn [fold_left]. destruct i as [| i]; cbn in Hi.
    + injection Hi as ->.
      rewrite update_trails_other by assumption. apply update_trail_same.
    + rewrite (IH _ i) by assumption.
      rewrite update_trail_other; [reflexivity |].
      intros Heq. apply Hfresh. rewrite Heq.
      apply list_elem_of_fmap_2, list_elem_of_lookup. eauto.
Qed.

End UpdateLoop.

(** *** One call of [update] *)

Lemma update_paused (self : SolarSystem) (frame : nat) :
  paused self = true -> update self frame = Ok self.
Proof. intros Hp. unfold update. rewrite Hp. reflexivity. Qed.

Lemma update_unpaused (self : SolarSystem) (frame : nat) :
  paused self = false ->
  Forall (fun b => orbital_period b <> 0) (drop 1 (bodies self)) ->
  update self frame = Ok (stepped self).
Proof.
  intros Hp Hall. unfold update. rewrite Hp. cbn [negb].
  rewrite update_loop_ok by assumption. reflexivity.
Qed.

Lemma update_unpaused_zero (self : SolarSystem) (frame : nat) :
  paused self = false ->
  Exists (fun b => orbital_period b = 0) (drop 1 (bodies self)) ->
  update self frame = Raise ZeroDivisionError.
Proof.
  intros Hp Hex. unfold update. rewrite Hp. cbn [negb].
  rewrite update_loop_zero by assumption. reflexivity.
Qed.

Lemma fmap_name_moved (dt : R) (bs : list CelestialBody) :
  name <$> (moved dt <$> bs) = name <$> bs.
Proof. induction bs as [| b bs IH]; [reflexivity |]. cbn. f_equal. exact IH. Qed.

Lemma fmap_constants_moved (dt : R) (bs : list CelestialBody) :
  constants <$> (moved dt <$> bs) = constants <$> bs.
Proof. induction bs as [| b bs IH]; [reflexivity |]. cbn. f_equal. exact IH. Qed.

Lemma drop_stepped (self : SolarSystem) :
  drop 1 (bodies (stepped self))
  = moved (time_step self) <$> drop 1 (bodies self).
Proof. unfold stepped. cbn. destruct (bodies self); reflexivity. Qed.

Lemma stepped_lookup (self : SolarSystem) (i : nat) :
  bodies (stepped self) !! S i
  = moved (time_step self) <$> bodies self !! S i.
Proof.
  change (bodies (stepped self) !! S i) with (bodies (stepped self) !! (1 + i)%nat).
  rewrite <- lookup_drop, drop_stepped, list_lookup_fmap, lookup_drop.
  reflexivity.
Qed.

Lemma update_trails_bounded (cap : nat) (bs : list CelestialBody)
    (tr : gmap string (list Np.vec3)) :
  map_Forall (fun _ t => (length t <= cap)%nat) tr ->
  map_Forall (fun _ t => (length t <= cap)%nat)
    (fold_left (update_trail cap) bs tr).
Proof.
  revert tr. induction bs as [| b bs IH]; intros tr Hall; [exact Hall |].
  cbn [fold_left]. apply IH. unfold update_trail.
  destruct (tr !! name b) as [t |] eqn:Hb; [| exact Hall].
  apply map_Forall_insert_2; [| exact Hall].
  apply push_trail_bounded. exact (Hall _ _ Hb).
Qed.

Lemma same_frame_refl (self : SolarSystem) : same_frame self self.
Proof. unfold same_frame. tauto. Qed.

Lemma same_frame_trans (s1 s2 s3 : SolarSystem) :
  same_frame s1 s2 -> same_frame s2 s3 -> same_frame s1 s3.
Proof.
  intros (H0 & Hc & Hl & Hm & Ht) (H0' & Hc' & Hl' & Hm' & Ht').
  unfold same_frame. repeat split; try congruence.
  - intros H. apply Ht, Ht', H.
  - intros H. apply Ht', Ht, H.
Qed.

Lemma stepped_same_frame (self : SolarSystem) : same_frame self (stepped self).
Proof.
  unfold same_frame. repeat split.
  - unfold stepped. cbn. destruct (bodies self); reflexivity.
  - unfold stepped. cbn. rewrite fmap_app, fmap_constants_moved, <- fmap_app.
    rewrite take_drop. reflexivity.
  - intros H. unfold stepped in H. cbn in H.
    apply update_trails_is_Some in H. exact H.
  - intros H. unfold stepped. cbn. apply update_trails_is_Some. exact H.
Qed.

Lemma stepped_healthy (self : SolarSystem) : healthy self -> healthy (stepped self).
Proof.
  intros (Hper & Hnd & Htr & Hlen). unfold healthy.
  rewrite drop_stepped. repeat split.
  - apply Forall_fmap. exact Hper.
  - rewrite fmap_name_moved. exact Hnd.
  - apply Forall_fmap. eapply Forall_impl; [exact Htr |].
    intros b Hb. cbn. unfold stepped. cbn. apply update_trails_is_Some. exact Hb.
  - unfold stepped. cbn. apply update_trails_bounded. exact Hlen.
Qed.

(** *** Events *)

Lemma handle_healthy (self : SolarSystem) (ev : event) :
  healthy self ->
  exists self', handle self ev = Ok self' /\ healthy self' /\ same_frame self self'.
Proof.
  intros Hh. destruct ev as [frame | | | | v]; cbn [handle].
  - destruct (paused self) eqn:Hp.
    + exists self. rewrite update_paused by assumption.
      split; [reflexivity |]. split; [exact Hh | apply same_frame_refl].
    + exists (stepped self). rewrite update_unpaused by (assumption || apply Hh).
      split; [reflexivity |].
      split; [apply stepped_healthy; exact Hh | apply stepped_same_frame].
  - eexists. split; [reflexivity |]. split; [exact Hh | exact (same_frame_refl self)].
  - eexists. split; [reflexivity |]. split; [exact Hh | exact (same_frame_refl self)].
  - eexists. split; [reflexivity |]. split; [exact Hh | exact (same_frame_refl self)].
  - eexists. split; [reflexivity |]. split; [exact Hh | exact (same_frame_refl self)].
Qed.

Lemma run_healthy (evs : list event) (self : SolarSystem) :
  healthy self ->
  exists self', run self evs = Ok self' /\ healthy self' /\ same_frame self self'.
Proof.
  revert self. induction evs as [| ev evs IH]; intros self Hh.
  - exists self. split; [reflexivity |]. split; [exact Hh | apply same_frame_refl].
  - destruct (handle_healthy self ev Hh) as (s1 & Hs1 & Hh1 & Hf1).
    destruct (IH s1 Hh1) as (s2 & Hs2 & Hh2 & Hf2).
    exists s2. cbn [run]. rewrite Hs1. cbn [bind].
    split; [exact Hs2 |]. split; [exact Hh2 |].
    eapply same_frame_trans; eassumption.
Qed.

(** Along any events, the trail of a body after the first is the old trail
    with the pushed points pushed one by one. *)
Lemma run_trail (evs : list event) (self : SolarSystem) (i : nat)
    (b : CelestialBody) (t : list Np.vec3) :
  healthy self ->
  bodies self !! S i = Some b ->
  trails self !! name b = Some t ->
  exists self',
    run self evs = Ok self'
    /\ trails self' !! name b
       = Some (fold_left (push_trail (trail_length self))
                 (pushed_points self (S i) evs) t).
Proof.
  revert self b t. induction evs as [| ev evs IH]; intros self b t Hh Hb Ht.
  - exists self. split; [reflexivity | exact Ht].
  - assert (Hquiet : forall self1,
      handle self ev = Ok self1 -> advances self ev = false ->
      bodies self1 = bodies self -> trails self1 = trails self ->
      trail_length self1 = trail_length self -> healthy self1 ->
      exists self', run self (ev :: evs) = Ok self'
        /\ trails self' !! name b
           = Some (fold_left (push_trail (trail_length self))
                     (pushed_points self (S i) (ev :: evs)) t)).
    { intros self1 Hev Hadv Hbs Htr Hcap Hh1.
      destruct (IH self1 b t Hh1) as (self' & Hrun & Hlook);
        [rewrite Hbs; exact Hb | rewrite Htr; exact Ht |].
      exists self'. cbn [run pushed_points]. rewrite Hev, Hadv. cbn [bind].
      split; [exact Hrun |]. rewrite Hlook, Hcap. reflexivity. }
    destruct ev as [frame | | | | v];
      try (apply (Hquiet _ eq_refl eq_refl eq_refl eq_refl eq_refl); exact Hh).
    destruct (paused self) eqn:Hp.
    + apply (Hquiet self); try reflexivity; try exact Hh.
      * cbn [handle]. apply update_paused. exact Hp.
      * cbn [advances]. rewrite Hp. reflexivity.
    + assert (Hb' : bodies (stepped self) !! S i = Some (moved (time_step self) b))
        by (rewrite stepped_lookup, Hb; reflexivity).
      assert (Ht' : trails (stepped self) !! name b
                    = Some (push_trail (trail_length self) t
                              (position (moved (time_step self) b)))).
      { unfold stepped. cbn [trails set_bodies_trails].
        change (name b) with (name (moved (time_step self) b)).
        rewrite (update_trails_at _ _ _ i).
        - cbn [name moved set_motion]. rewrite Ht. reflexivity.
        - rewrite fmap_name_moved. apply Hh.
        - rewrite list_lookup_fmap, lookup_drop. cbn [Nat.add].
          rewrite Hb. reflexivity. }
      destruct (IH (stepped self) (moved (time_step self) b) _
                  (stepped_healthy _ Hh) Hb' Ht') as (self' & Hrun & Hlook).
      exists self'. cbn [run pushed_points handle].
      rewrite update_unpaused by (assumption || apply Hh).
      cbn [bind advances]. rewrite Hp. cbn [negb].
      unfold position_at at 1. rewrite Hb'. cbn [fmap option_fmap option_map].
      split; [exact Hrun |]. exact Hlook.
Qed.

(** Unpaused frames push one point each. *)
Lemma pushed_points_frames (frames : list nat) (self : SolarSystem) (i : nat)
    (b : CelestialBody) :
  healthy self ->
  paused self = false ->
  bodies self !! S i = Some b ->
  length (pushed_points self (S i) (DrawFrame <$> frames)) = length frames.
Proof.
  revert self b. induction frames as [| frame frames IH]; intros self b Hh Hp Hb.
  - reflexivity.
  - cbn [fmap list_fmap pushed_points handle].
    rewrite update_unpaused by (assumption || apply Hh).
    cbn [advances]. rewrite Hp. cbn [negb].
    unfold position_at at 1. rewrite stepped_lookup, Hb.
    cbn [fmap option_fmap option_map length]. f_equal.
    apply (IH (stepped self) (moved (time_step self) b)).
    + apply stepped_healthy. exact Hh.
    + exact Hp.
    + rewrite stepped_lookup, Hb. reflexivity.
Qed.

(** *** Construction *)


Lemma name_init (d : body_data) (u : R) :
  name (CelestialBody_init d u) = data_name d.
Proof. destruct d as [[[[[n r] dist] per] c] tl]. reflexivity. Qed.

Lemma angle_init (d : body_data) (u : R) :
  angle (CelestialBody_init d u) = 2 * PI * u.
Proof.
  destruct d as [[[[[n r] dist] per] c] tl]. cbn. unfold Np.random_uniform. lra.
Qed.

Lemma position_init (d : body_data) (u : R) :
  position (CelestialBody_init d u) = (0, 0, 0).
Proof. destruct d as [[[[[n r] dist] per] c] tl]. reflexivity. Qed.

(** The loop builds one body per row, the [i]-th one from the [i]-th
    sample. *)
Lemma initialize_loop_bodies (g : rng) (data : list body_data) (k : nat)
    (bs : list CelestialBody) (tr : gmap string (list Np.vec3)) :
  fst (initialize_loop g k data bs tr)
  = bs ++ imap (fun i d => CelestialBody_init d (g (k + i)%nat)) data.
Proof.
  revert k bs tr. induction data as [| d data IH]; intros k bs tr.
  - cbn. rewrite app_nil_r. reflexivity.
  - cbn [initialize_loop]. rewrite IH, <- app_assoc. cbn [app imap].
    rewrite Nat.add_0_r. do 2 f_equal.
    apply imap_ext. intros i x _. cbn. do 2 f_equal. lia.
Qed.

Lemma bodies_init_with (data : list body_data) (mode : string) (g : rng) :
  bodies (SolarSystem_init_with data mode g)
  = imap (fun i d => CelestialBody_init d (g i)) data.
Proof.
  unfold SolarSystem_init_with.
  pose proof (initialize_loop_bodies g data 0 [] ∅) as H.
  destruct (initialize_loop g 0 data [] ∅) as [bs tr]. exact H.
Qed.

Lemma trails_init_with (data : list body_data) (mode : string) (g : rng) :
  trails (SolarSystem_init_with data mode g)
  = snd (initialize_loop g 0 data [] ∅).
Proof.
  unfold SolarSystem_init_with.
  destruct (initialize_loop g 0 data [] ∅) as [bs tr]. reflexivity.
Qed.

(** Every trail starts empty. *)
Lemma initialize_loop_trails (g : rng) (data : list body_data) (k : nat)
    (bs : list CelestialBody) (tr : gmap string (list Np.vec3)) :
  map_Forall (fun _ t => t = []) tr ->
  map_Forall (fun _ t => t = []) (snd (initialize_loop g k data bs tr)).
Proof.
  revert k bs tr. induction data as [| d data IH]; intros k bs tr Hall.
  - exact Hall.
  - cbn [initialize_loop]. apply IH. case_decide; [| exact Hall].
    apply map_Forall_insert_2; [reflexivity | exact Hall].
Qed.

Lemma init_healthy (mode : string) (g : rng) : healthy (SolarSystem_init mode g).
Proof.
  unfold healthy. repeat split.
  - cbn. repeat constructor; cbn; lra.
  - apply (bool_decide_unpack _). reflexivity.
  - cbn. repeat constructor; cbn; eexists; reflexivity.
  - intros k t Hk. unfold SolarSystem_init in Hk.
    rewrite trails_init_with in Hk.
    apply initialize_loop_trails in Hk; [| apply map_Forall_empty].
    rewrite Hk. cbn. lia.
Qed.

(** *** Logarithm and power *)

Lemma ln_10_pos : 0 < ln 10.
Proof. rewrite <- ln_1. apply ln_increasing; lra. Qed.

Lemma ln_le_compat (x y : R) : 0 < x -> x <= y -> ln x <= ln y.
Proof.
  intros Hx [Hlt | ->]; [| lra].
  left. apply ln_increasing; assumption.
Qed.

Lemma log10_1 : Np.log10 1 = 0.
Proof. unfold Np.log10. rewrite ln_1. lra. Qed.

Lemma log10_le (x y : R) : 0 < x -> x <= y -> Np.log10 x <= Np.log10 y.
Proof.
  intros Hx Hxy. unfold Np.log10.
  apply Rmult_le_compat_r.
  - left. apply Rinv_0_lt_compat, ln_10_pos.
  - apply ln_le_compat; assumption.
Qed.

Lemma log10_lt (x y : R) : 0 < x -> x < y -> Np.log10 x < Np.log10 y.
Proof.
  intros Hx Hxy. unfold Np.log10.
  apply Rmult_lt_compat_r.
  - apply Rinv_0_lt_compat, ln_10_pos.
  - apply ln_increasing; assumption.
Qed.

Lemma log10_10000 : Np.log10 10000 = 4.
Proof.
  unfold Np.log10. pose proof ln_10_pos as H10.
  replace 10000 with (10 * (10 * (10 * 10))) by lra.
  rewrite !ln_mult by lra. field. lra.
Qed.

Lemma pow_0 (y : R) : Np.pow 0 y = 0.
Proof. unfold Np.pow. destruct (Req_dec_T 0 0); [reflexivity | lra]. Qed.

Lemma pow_positive (x y : R) : x <> 0 -> 0 < Np.pow x y.
Proof.
  intros Hx. unfold Np.pow. destruct (Req_dec_T x 0); [contradiction |].
  unfold Rpower. apply exp_pos.
Qed.

Lemma pow_1 (y : R) : Np.pow 1 y = 1.
Proof.
  unfold Np.pow. destruct (Req_dec_T 1 0); [lra |].
  unfold Rpower. rewrite ln_1, Rmult_0_r. apply exp_0.
Qed.

Lemma pow_le (x1 x2 y : R) :
  0 <= y -> 0 <= x1 -> x1 <= x2 -> Np.pow x1 y <= Np.pow x2 y.
Proof.
  intros Hy H1 H12.
  destruct (Req_dec_T x1 0) as [-> | Hnz1].
  - rewrite pow_0. destruct (Req_dec_T x2 0) as [-> | Hnz2].
    + rewrite pow_0. lra.
    + left. apply pow_positive. assumption.
  - unfold Np.pow.
    destruct (Req_dec_T x1 0); [contradiction |].
    destruct (Req_dec_T x2 0); [lra |].
    apply Rle_Rpower_l; lra.
Qed.

(** *** The scale modes *)

Lemma get_scaled_radius_mono (self : SolarSystem) (r1 r2 : R) :
  0 < r1 -> r1 <= r2 ->
  get_scaled_radius self r1 <= get_scaled_radius self r2.
Proof.
  intros Hpos Hle. unfold get_scaled_radius.
  repeat case_decide; try lra.
  pose proof (log10_le r1 r2 Hpos Hle). lra.
Qed.

Lemma get_scaled_distance_mono (self : SolarSystem) (d1 d2 : R) :
  0 <= d1 -> d1 <= d2 ->
  get_scaled_distance self d1 <= get_scaled_distance self d2.
Proof.
  intros Hpos Hle. unfold get_scaled_distance.
  repeat case_decide; try lra.
  - destruct (Req_dec_T d1 0) as [-> | Hnz1];
      destruct (Req_dec_T d2 0) as [-> | Hnz2]; try lra.
    + pose proof (log10_le 1 (d2 * 10 + 1)) as Hlog. rewrite log10_1 in Hlog. lra.
    + pose proof (log10_le (d1 * 10 + 1) (d2 * 10 + 1)) as Hlog. lra.
  - pose proof (pow_le d1 d2 0.7). lra.
Qed.

Lemma get_scaled_radius_else (self : SolarSystem) (r : R) :
  scale_mode self ∉ ["realistic"; "logarithmic"]%string ->
  get_scaled_radius self r = 0.05 + (r / 100000) * 2.
Proof.
  intros Hm. unfold get_scaled_radius.
  repeat case_decide; [exfalso; apply Hm; set_solver .. | reflexivity].
Qed.

Lemma get_scaled_distance_else (self : SolarSystem) (d : R) :
  scale_mode self ∉ ["realistic"; "logarithmic"]%string ->
  get_scaled_distance self d = Np.pow d 0.7 * 5.
Proof.
  intros Hm. unfold get_scaled_distance.
  repeat case_decide; [exfalso; apply Hm; set_solver .. | reflexivity].
Qed.

Lemma catalog_radii_pos (r : R) : r ∈ catalog_radii -> 0 < r.
Proof.
  unfold catalog_radii. intros H.
  repeat (apply elem_of_cons in H; destruct H as [-> | H]; [lra |]).
  apply elem_of_nil in H. contradiction.
Qed.

Lemma catalog_distances_nonneg (d : R) : d ∈ catalog_distances -> 0 <= d.
Proof.
  unfold catalog_distances. intros H.
  repeat (apply elem_of_cons in H; destruct H as [-> | H]; [lra |]).
  apply elem_of_nil in H. contradiction.
Qed.

(** The menu of [main] only ever yields one of the three modes. *)
Lemma scale_mode_of_choice_known (choice : string) :
  scale_mode_of_choice choice ∈ known_modes.
Proof.
  unfold scale_mode_of_choice, scale_modes, known_modes.
  repeat (rewrite lookup_insert; case_decide; [cbn; set_solver |]).
  rewrite lookup_empty. cbn. set_solver.
Qed.

Lemma scale_mode_of_choice_default (choice : string) :
  choice ∉ ["1"; "2"; "3"; ""]%string ->
  scale_mode_of_choice choice = "logarithmic"%string.
Proof.
  intros Hc. unfold scale_mode_of_choice, scale_modes.
  repeat (rewrite lookup_insert; case_decide; [exfalso; apply Hc; set_solver |]).
  rewrite lookup_empty. reflexivity.
Qed.

Lemma cinematic_unknown : "cinematic"%string ∉ known_modes.
Proof.
  unfold known_modes. intros Hin.
  repeat (apply elem_of_cons in Hin; destruct Hin as [Heq | Hin];
          [discriminate Heq |]).
  apply elem_of_nil in Hin. contradiction.
Qed.

(** One unpaused [update] from a healthy state: the body at a place after
    the first is replaced by what [update_position] makes of it, and the
    position so computed is pushed on the trail of its name. *)
Lemma update_pushes_position (self : SolarSystem) (frame i : nat)
    (b : CelestialBody) (t : list Np.vec3) :
  healthy self ->
  paused self = false ->
  bodies self !! S i = Some b ->
  trails self !! name b = Some t ->
  exists (self' : SolarSystem) (b' : CelestialBody),
    update self frame = Ok self'
    /\ update_position b (time_step self) = Ok (b', position b')
    /\ bodies self' !! S i = Some b'
    /\ trails self' !! name b
       = Some (push_trail (trail_length self) t (position b')).
Proof.
  intros Hh Hp Hb Ht.
  assert (Hper : orbital_period b <> 0).
  { destruct Hh as (Hall & _).
    apply (proj1 (Forall_lookup _ _) Hall i b).
    rewrite lookup_drop. exact Hb. }
  exists (stepped self), (moved (time_step self) b).
  split; [apply update_unpaused; [exact Hp | apply Hh] |].
  split; [apply update_position_nonzero; exact Hper |].
  split; [rewrite stepped_lookup, Hb; reflexivity |].
  unfold stepped. cbn [trails set_bodies_trails].
  change (name b) with (name (moved (time_step self) b)).
  rewrite (update_trails_at _ _ _ i).
  - cbn [name moved set_motion]. rewrite Ht. reflexivity.
  - rewrite fmap_name_moved. apply Hh.
  - rewrite list_lookup_fmap, lookup_drop. cbn [Nat.add]. rewrite Hb. reflexivity.
Qed.

Lemma init_trail_empty (mode : string) (g : rng) (k : string) (t : list Np.vec3) :
  trails (SolarSystem_init mode g) !! k = Some t -> t = [].
Proof.
  intros Hk. unfold SolarSystem_init in Hk. rewrite trails_init_with in Hk.
  apply initialize_loop_trails in Hk; [exact Hk | apply map_Forall_empty].
Qed.

Lemma scale_ratio_artistic (self : SolarSystem) :
  scale_mode self = "artistic"%string -> scale_ratio self = 5.
Proof.
  intros Hm. unfold scale_ratio. rewrite get_scaled_distance_else.
  - rewrite pow_1. lra.
  - rewrite Hm. intros Hin. rewrite !elem_of_cons, elem_of_nil in Hin.
    destruct Hin as [Heq | [Heq | []]]; discriminate Heq.
Qed.

(** *** The claims *)


(** C1: for a body with [orbital_period > 0] and a time step [dt >= 0],
    [update_position] returns; the new angle is the old one plus
    [(2*pi / orbital_period) * dt], and the position stored and returned is
    [(d cos a', d sin a' cos tilt, d sin a' sin tilt)]. *)
Theorem update_position_spec (b : CelestialBody) (dt : R) :
  orbital_period b > 0 ->
  0 <= dt ->
  exists b',
    let a' := angle b + (2 * PI / orbital_period b) * dt in
    let p := (distance b * cos a',
              distance b * sin a' * cos (tilt b),
              distance b * sin a' * sin (tilt b)) in
    update_position b dt = Ok (b', p)
    /\ angle b' = a'
    /\ position b' = p.
Proof.
  intros Hperiod _.
  unfold update_position, py_div.
  destruct (Req_dec_T (orbital_period b) 0) as [Hz | Hnz]; [lra |].
  cbn [bind]. eexists. split; [reflexivity |]. split; reflexivity.
Qed.

Lemma update_position_spec_witness :
  exists b',
    update_position (CelestialBody_init ("Earth"%string, 6371, 1, 365, "#4169E1"%string, 0) 0) 1
    = Ok (b', position b').
Proof.
  destruct (update_position_spec
              (CelestialBody_init ("Earth"%string, 6371, 1, 365, "#4169E1"%string, 0) 0) 1)
    as [b' [Hu [_ Hp]]].
  - simpl. lra.
  - lra.
  - exists b'. rewrite Hp. exact Hu.
Defined.

(** C2: while [paused] is set, any number of calls of [update] returns the
    system as it was: every angle, every position and every trail is
    unchanged. *)
Theorem paused_updates_change_nothing (self : SolarSystem) (frames : list nat) :
  paused self = true ->
  run self (DrawFrame <$> frames) = Ok self.
Proof.
  intros Hp. induction frames as [| frame frames IH]; [reflexivity |].
  cbn [fmap list_fmap run handle]. rewrite update_paused by assumption.
  cbn [bind]. exact IH.
Qed.

Lemma paused_updates_change_nothing_witness :
  run (toggle_pause (SolarSystem_init "logarithmic" (fun _ => 0)))
      (DrawFrame <$> [0; 1; 2]%nat)
  = Ok (toggle_pause (SolarSystem_init "logarithmic" (fun _ => 0))).
Proof.
  apply (paused_updates_change_nothing
           (toggle_pause (SolarSystem_init "logarithmic" (fun _ => 0)))
           [0; 1; 2]%nat).
  reflexivity.
Defined.

(** C3: the trail of every body after the first has capacity 100.  After
    any events, it holds the newest 100 of the points pushed for that body,
    oldest first (all of them while there are at most 100); so its length
    never exceeds 100, and is exactly 100 once more than 100 points were
    pushed. *)
Theorem trail_keeps_newest_points (mode : string) (g : rng)
    (evs : list event) (i : nat) (b0 : CelestialBody) :
  bodies (SolarSystem_init mode g) !! S i = Some b0 ->
  exists (self : SolarSystem) (t : list Np.vec3),
    let pts := pushed_points (SolarSystem_init mode g) (S i) evs in
    run (SolarSystem_init mode g) evs = Ok self
    /\ trail_length self = 100%nat
    /\ trails self !! name b0 = Some t
    /\ t = drop (length pts - 100) pts
    /\ (length t <= 100)%nat
    /\ ((100 < length pts)%nat -> length t = 100%nat).
Proof.
  intros Hb.
  pose proof (init_healthy mode g) as Hh.
  assert (Ht0 : trails (SolarSystem_init mode g) !! name b0 = Some []).
  { destruct Hh as (_ & _ & Hsome & _).
    assert (Hin : drop 1 (bodies (SolarSystem_init mode g)) !! i = Some b0)
      by (rewrite lookup_drop; exact Hb).
    destruct (proj1 (Forall_lookup _ _) Hsome i b0 Hin) as [t Ht].
    rewrite Ht. f_equal.
    unfold SolarSystem_init in Ht. rewrite trails_init_with in Ht.
    apply initialize_loop_trails in Ht; [exact Ht | apply map_Forall_empty]. }
  destruct (run_trail evs _ i b0 [] Hh Hb Ht0) as (self & Hrun & Hlook).
  destruct (run_healthy evs _ Hh) as (self1 & Hrun1 & _ & Hframe).
  rewrite Hrun in Hrun1. injection Hrun1 as <-.
  destruct Hframe as (_ & _ & Hcap & _).
  change (trail_length (SolarSystem_init mode g)) with 100%nat in Hlook, Hcap.
  rewrite push_trail_fold in Hlook by (cbn; lia).
  cbn [length app Nat.add] in Hlook.
  eexists self, _. cbn zeta.
  split; [exact Hrun |]. split; [exact Hcap |]. split; [exact Hlook |].
  split; [reflexivity |].
  rewrite length_drop. split; [lia |]. intros Hlt. lia.
Qed.

Lemma trail_keeps_newest_points_witness :
  exists (self : SolarSystem) (t : list Np.vec3),
    run (SolarSystem_init "logarithmic" (fun _ => 0)) (DrawFrame <$> seq 0 101)
    = Ok self
    /\ trails self !! "Mercury"%string = Some t
    /\ length t = 100%nat.
Proof.
  destruct (trail_keeps_newest_points "logarithmic" (fun _ => 0)
              (DrawFrame <$> seq 0 101) 0
              (CelestialBody_init
                 ("Mercury"%string, 2440, 0.39, 88, "#8C7853"%string, 7.0) 0))
    as (self & t & Hrun & _ & Hlook & _ & _ & Hfull).
  - reflexivity.
  - exists self, t. split; [exact Hrun |]. split; [exact Hlook |].
    apply Hfull.
    rewrite (pushed_points_frames (seq 0 101) _ 0
               (CelestialBody_init
                  ("Mercury"%string, 2440, 0.39, 88, "#8C7853"%string, 7.0) 0)
               (init_healthy _ _) eq_refl eq_refl).
    rewrite length_seq. lia.
Defined.

(** C9: the first body of the list is the Sun, with distance 0 and period
    0.  Whatever events follow the construction, paused or not, the run
    returns, the first body is still the one constructed, with its initial
    angle and the position (0, 0, 0), and there is no trail under its
    name. *)
Theorem central_body_never_advanced (mode : string) (g : rng) (evs : list event) :
  exists (self : SolarSystem) (sun : CelestialBody),
    bodies (SolarSystem_init mode g) !! 0%nat = Some sun
    /\ name sun = "Sun"%string
    /\ distance sun = 0
    /\ orbital_period sun = 0
    /\ run (SolarSystem_init mode g) evs = Ok self
    /\ bodies self !! 0%nat = Some sun
    /\ angle sun = 2 * PI * g 0%nat
    /\ position sun = (0, 0, 0)
    /\ trails self !! name sun = None.
Proof.
  destruct (run_healthy evs _ (init_healthy mode g))
    as (self & Hrun & _ & Hhead & _ & _ & _ & Htrails).
  exists self,
    (CelestialBody_init ("Sun"%string, 696000, 0, 0, "#FDB813"%string, 0) (g 0%nat)).
  split; [reflexivity |]. split; [reflexivity |]. split; [reflexivity |].
  split; [reflexivity |]. split; [exact Hrun |]. split; [exact Hhead |].
  split; [apply angle_init |]. split; [reflexivity |].
  apply eq_None_not_Some. intros Hsome. apply Htrails in Hsome.
  destruct Hsome as [t Ht]. discriminate Ht.
Qed.

(** C10: every body, the first one included, starts at the angle drawn
    by [np.random.uniform(0, 2*pi)], that is [2*pi*u] for the sample [u]
    the generator draws for it.  As the samples lie in [0, 1) the angle lies
    in [0, 2*pi), and every angle of [0, 2*pi) is the initial angle under
    some samples; two constructions from the same table with different
    samples give different initial angles. *)
Theorem initial_angles_random (mode : string) :
  (forall g, samples_in_range g ->
     length (bodies (SolarSystem_init mode g)) = 9%nat
     /\ Forall (fun b => 0 <= angle b < 2 * PI) (bodies (SolarSystem_init mode g)))
  /\ (forall g i b,
        bodies (SolarSystem_init mode g) !! i = Some b ->
        angle b = Np.random_uniform 0 (2 * PI) (g i)
        /\ angle b = 2 * PI * g i)
  /\ (forall a, 0 <= a < 2 * PI ->
        exists g, samples_in_range g
          /\ Forall (fun b => angle b = a) (bodies (SolarSystem_init mode g)))
  /\ (exists g1 g2,
        samples_in_range g1 /\ samples_in_range g2
        /\ Forall2 (fun b1 b2 => angle b1 <> angle b2)
             (bodies (SolarSystem_init mode g1))
             (bodies (SolarSystem_init mode g2))).
Proof.
  pose proof PI_RGT_0 as Hpi.
  assert (Hangle : forall g i b,
            bodies (SolarSystem_init mode g) !! i = Some b ->
            angle b = 2 * PI * g i).
  { intros g i b Hb. unfold SolarSystem_init in Hb.
    rewrite bodies_init_with, list_lookup_imap in Hb.
    destruct (bodies_data !! i) as [d |]; [| discriminate].
    injection Hb as <-. apply angle_init. }
  split; [| split; [| split]].
  - intros g Hg. split; [reflexivity |].
    apply Forall_lookup. intros i b Hb.
    rewrite (Hangle g i b Hb). specialize (Hg i). nra.
  - intros g i b Hb. rewrite (Hangle g i b Hb).
    unfold Np.random_uniform. split; lra.
  - intros a Ha. exists (fun _ => a / (2 * PI)). split.
    + intros k. split.
      * apply Rmult_le_pos; [lra |]. left. apply Rinv_0_lt_compat. lra.
      * apply (Rmult_lt_reg_r (2 * PI)); [lra |].
        unfold Rdiv. rewrite Rmult_assoc, Rinv_l by lra. lra.
    + apply Forall_lookup. intros i b Hb.
      rewrite (Hangle _ i b Hb). field. lra.
  - exists (fun _ => 0), (fun _ => 1 / 2).
    split; [intros k; lra |]. split; [intros k; lra |].
    cbn. repeat constructor; cbn; unfold Np.random_uniform; nra.
Qed.

Lemma initial_angles_random_witness :
  Forall (fun b => 0 <= angle b < 2 * PI)
    (bodies (SolarSystem_init "logarithmic" (fun _ => 1 / 2)))
  /\ exists g, samples_in_range g
       /\ Forall (fun b => angle b = 4)
            (bodies (SolarSystem_init "logarithmic" g)).
Proof.
  split.
  - apply (proj1 (initial_angles_random "logarithmic") (fun _ => 1 / 2)).
    intros k. lra.
  - apply (proj1 (proj2 (proj2 (initial_angles_random "logarithmic"))) 4).
    pose proof PI2_3_2 as Hpi. lra.
Defined.

(** C8: in each of the three modes, [get_scaled_radius] is non-decreasing
    over the radii of the table and [get_scaled_distance] is non-decreasing
    over its distances; in the logarithmic mode the distance 0 is scaled to
    exactly 0. *)
Theorem scaling_monotone_on_catalog (self : SolarSystem) :
  scale_mode self ∈ known_modes ->
  (forall r1 r2, r1 ∈ catalog_radii -> r2 ∈ catalog_radii -> r1 <= r2 ->
     get_scaled_radius self r1 <= get_scaled_radius self r2)
  /\ (forall d1 d2, d1 ∈ catalog_distances -> d2 ∈ catalog_distances -> d1 <= d2 ->
        get_scaled_distance self d1 <= get_scaled_distance self d2)
  /\ (scale_mode self = "logarithmic"%string -> get_scaled_distance self 0 = 0).
Proof.
  intros _. split; [| split].
  - intros r1 r2 H1 _ Hle.
    apply get_scaled_radius_mono; [apply catalog_radii_pos |]; assumption.
  - intros d1 d2 H1 _ Hle.
    apply get_scaled_distance_mono; [apply catalog_distances_nonneg |]; assumption.
  - intros Hm. unfold get_scaled_distance. rewrite Hm. cbn.
    destruct (Req_dec_T 0 0); [reflexivity | lra].
Qed.

Lemma scaling_monotone_on_catalog_witness :
  get_scaled_radius (SolarSystem_init "logarithmic" (fun _ => 0)) 2440
  <= get_scaled_radius (SolarSystem_init "logarithmic" (fun _ => 0)) 3390
  /\ get_scaled_distance (SolarSystem_init "logarithmic" (fun _ => 0)) 0
     <= get_scaled_distance (SolarSystem_init "logarithmic" (fun _ => 0)) 0.39
  /\ get_scaled_distance (SolarSystem_init "logarithmic" (fun _ => 0)) 0 = 0.
Proof.
  destruct (scaling_monotone_on_catalog (SolarSystem_init "logarithmic" (fun _ => 0)))
    as (Hr & Hd & Hz).
  - unfold known_modes. cbn. set_solver.
  - split; [| split].
    + apply Hr; [unfold catalog_radii; set_solver .. | lra].
    + apply Hd; [unfold catalog_distances; set_solver .. | lra].
    + apply Hz. reflexivity.
Defined.

(** C6, as stated, fails: a system constructed with the string
    ["cinematic"] scales Earth's radius by the artistic formula, not by the
    logarithmic one. *)
Lemma unknown_mode_is_not_logarithmic :
  ("cinematic"%string ∉ known_modes)
  /\ get_scaled_radius (SolarSystem_init "cinematic" (fun _ => 0)) 6371
     <> get_scaled_radius (SolarSystem_init "logarithmic" (fun _ => 0)) 6371.
Proof.
  split; [exact cinematic_unknown |].
  change (get_scaled_radius (SolarSystem_init "cinematic" (fun _ => 0)) 6371)
    with (0.05 + (6371 / 100000) * 2).
  change (get_scaled_radius (SolarSystem_init "logarithmic" (fun _ => 0)) 6371)
    with (0.02 + Np.log10 6371 * 0.01).
  pose proof (log10_lt 6371 10000) as Hlt. rewrite log10_10000 in Hlt. lra.
Qed.

(** C6, amended: constructing the system with a string that is none of
    the three modes does not fail and keeps the string; both scaling
    functions then take their last branch, so the system behaves as if the
    mode were ['artistic'].  The default ['logarithmic'] is what [main]
    substitutes for an unrecognised menu choice, and [main] only ever
    passes one of the three modes. *)
Theorem unknown_mode_is_artistic (mode : string) (g : rng) :
  mode ∉ known_modes ->
  scale_mode (SolarSystem_init mode g) = mode
  /\ (forall r, get_scaled_radius (SolarSystem_init mode g) r
                = get_scaled_radius (SolarSystem_init "artistic" g) r)
  /\ (forall d, get_scaled_distance (SolarSystem_init mode g) d
                = get_scaled_distance (SolarSystem_init "artistic" g) d)
  /\ (forall choice, choice ∉ ["1"; "2"; "3"; ""]%string ->
        scale_mode_of_choice choice = "logarithmic"%string)
  /\ (forall choice, scale_mode_of_choice choice ∈ known_modes).
Proof.
  intros Hm. split; [reflexivity |].
  assert (Hm' : scale_mode (SolarSystem_init mode g)
                ∉ ["realistic"; "logarithmic"]%string).
  { intros Hin. apply Hm. unfold known_modes.
    change (scale_mode (SolarSystem_init mode g)) with mode in Hin.
    rewrite !elem_of_cons in Hin. rewrite !elem_of_cons. tauto. }
  split; [| split; [| split]].
  - intros r. rewrite get_scaled_radius_else by exact Hm'. reflexivity.
  - intros d. rewrite get_scaled_distance_else by exact Hm'. reflexivity.
  - apply scale_mode_of_choice_default.
  - apply scale_mode_of_choice_known.
Qed.

Lemma unknown_mode_is_artistic_witness :
  get_scaled_distance (SolarSystem_init "cinematic" (fun _ => 0)) 1
  = get_scaled_distance (SolarSystem_init "artistic" (fun _ => 0)) 1.
Proof.
  destruct (unknown_mode_is_artistic "cinematic" (fun _ => 0)) as (_ & _ & Hd & _).
  - exact cinematic_unknown.
  - apply Hd.
Defined.

(** C7: for every requested speed [v], [set_speed] leaves a time step
    clamped into [0.1, 10.0]: a request at or below 0.1 gives 0.1 (so 0.0
    gives 0.1), a request at or above 10.0 gives 10.0 (so 50 gives 10.0), a
    request inside the range is taken as given; no request is refused, and
    nothing but the time step changes. *)
Theorem set_speed_clamps (self : SolarSystem) (v : R) :
  0.1 <= time_step (set_speed self v) <= 10.0
  /\ (v <= 0.1 -> time_step (set_speed self v) = 0.1)
  /\ (10.0 <= v -> time_step (set_speed self v) = 10.0)
  /\ (0.1 <= v <= 10.0 -> time_step (set_speed self v) = v)
  /\ time_step (set_speed self 0.0) = 0.1
  /\ time_step (set_speed self 50) = 10.0
  /\ bodies (set_speed self v) = bodies self
  /\ trails (set_speed self v) = trails self
  /\ paused (set_speed self v) = paused self.
Proof.
  assert (Hclamp : forall w,
            time_step (set_speed self w)
            = value_in_bounds (slider_speed 1.0) w) by reflexivity.
  assert (Hcases : forall w,
            0.1 <= value_in_bounds (slider_speed 1.0) w <= 10.0
            /\ (w <= 0.1 -> value_in_bounds (slider_speed 1.0) w = 0.1)
            /\ (10.0 <= w -> value_in_bounds (slider_speed 1.0) w = 10.0)
            /\ (0.1 <= w <= 10.0 -> value_in_bounds (slider_speed 1.0) w = w)).
  { intros w. unfold value_in_bounds. cbn [valmin valmax slider_speed].
    destruct (Rle_dec w 0.1) as [Hlo | Hlo];
      [| destruct (Rle_dec 10.0 w) as [Hhi | Hhi]];
      repeat split; intros; lra. }
  rewrite !Hclamp.
  destruct (Hcases v) as (H1 & H2 & H3 & H4).
  split; [exact H1 |]. split; [exact H2 |]. split; [exact H3 |].
  split; [exact H4 |].
  split; [apply (Hcases 0.0); lra |].
  split; [apply (Hcases 50); lra |].
  repeat split; reflexivity.
Qed.

Lemma set_speed_clamps_witness :
  time_step (set_speed (SolarSystem_init "logarithmic" (fun _ => 0)) (-3)) = 0.1
  /\ time_step (set_speed (SolarSystem_init "logarithmic" (fun _ => 0)) 2.5) = 2.5.
Proof.
  split.
  - apply (set_speed_clamps (SolarSystem_init "logarithmic" (fun _ => 0)) (-3)).
    lra.
  - apply (set_speed_clamps (SolarSystem_init "logarithmic" (fun _ => 0)) 2.5).
    lra.
Defined.

(** C4, as stated, fails: in the artistic mode the first [update] pushes
    Mercury's position itself on its trail, which is not that position
    scaled by the distance-scale ratio (5 in this mode). *)
Lemma trail_point_is_not_scaled :
  exists (self : SolarSystem) (p : Np.vec3),
    update (SolarSystem_init "artistic" (fun _ => 0)) 0 = Ok self
    /\ position_at self 1 = Some p
    /\ trails self !! "Mercury"%string = Some [p]
    /\ p <> scaled_pos self p.
Proof.
  destruct (update_pushes_position (SolarSystem_init "artistic" (fun _ => 0)) 0 0
              (CelestialBody_init
                 ("Mercury"%string, 2440, 0.39, 88, "#8C7853"%string, 7.0) 0) [])
    as (self & b' & Hup & Hpos & Hb' & Htr);
    [apply init_healthy | reflexivity | reflexivity | reflexivity |].
  rewrite update_position_nonzero in Hpos by (cbn; lra).
  injection Hpos as <-.
  exists self, (position (moved 1 (CelestialBody_init
                 ("Mercury"%string, 2440, 0.39, 88, "#8C7853"%string, 7.0) 0))).
  split; [exact Hup |].
  split; [unfold position_at; rewrite Hb'; reflexivity |].
  split; [exact Htr |].
  unfold scaled_pos. rewrite scale_ratio_artistic.
  - cbn. unfold Np.random_uniform, Np.vmul, Np.vx. cbn.
    intros Heq. injection Heq as Hx _ _.
    assert (Hcos : 0 < cos (0 + (2 * PI - 0) * 0 + 2 * PI / 88 * 1)).
    { pose proof PI_RGT_0 as Hpi. apply cos_gt_0; lra. }
    lra.
  - pose proof (update_unpaused (SolarSystem_init "artistic" (fun _ => 0)) 0
                  eq_refl (proj1 (init_healthy _ _))) as Hst.
    rewrite Hup in Hst. injection Hst as ->. reflexivity.
Qed.

(** C4, amended: on every unpaused [update] of a running system, the
    point pushed on the trail of a body after the first is the position
    [update_position] has just computed for it, unscaled; the distance-scale
    ratio is applied to the stored trail only when it is drawn. *)
Theorem trail_receives_raw_position (mode : string) (g : rng)
    (evs : list event) (self : SolarSystem) (frame i : nat)
    (b : CelestialBody) (t : list Np.vec3) :
  run (SolarSystem_init mode g) evs = Ok self ->
  paused self = false ->
  bodies self !! S i = Some b ->
  trails self !! name b = Some t ->
  exists (self' : SolarSystem) (b' : CelestialBody),
    update self frame = Ok self'
    /\ update_position b (time_step self) = Ok (b', position b')
    /\ bodies self' !! S i = Some b'
    /\ trails self' !! name b
       = Some (push_trail (trail_length self) t (position b'))
    /\ forall tr, scaled_trail self' tr = scaled_pos self' <$> tr.
Proof.
  intros Hrun Hp Hb Ht.
  destruct (run_healthy evs _ (init_healthy mode g)) as (self1 & Hrun1 & Hh & _).
  rewrite Hrun in Hrun1. injection Hrun1 as <-.
  destruct (update_pushes_position self frame i b t Hh Hp Hb Ht)
    as (self' & b' & H1 & H2 & H3 & H4).
  exists self', b'. repeat split; assumption.
Qed.

Lemma trail_receives_raw_position_witness :
  exists (self' : SolarSystem) (b' : CelestialBody),
    update (SolarSystem_init "artistic" (fun _ => 0)) 0 = Ok self'
    /\ bodies self' !! 1%nat = Some b'
    /\ trails self' !! "Mercury"%string = Some [position b'].
Proof.
  destruct (trail_receives_raw_position "artistic" (fun _ => 0) []
              (SolarSystem_init "artistic" (fun _ => 0)) 0 0
              (CelestialBody_init
                 ("Mercury"%string, 2440, 0.39, 88, "#8C7853"%string, 7.0) 0) [])
    as (self' & b' & Hup & _ & Hb' & Htr & _);
    [reflexivity | reflexivity | reflexivity | reflexivity |].
  exists self', b'. split; [exact Hup |]. split; [exact Hb' | exact Htr].
Defined.




(** ** Further properties *)

(** *** [update_position] *)

Lemma update_position_Ok_inv (b b' : CelestialBody) (dt : R) (p : Np.vec3) :
  update_position b dt = Ok (b', p) ->
  orbital_period b <> 0 /\ b' = moved dt b /\ p = position (moved dt b).
Proof.
  intros Hup. destruct (Req_dec_T (orbital_period b) 0) as [Hz | Hnz].
  - rewrite update_position_zero in Hup by assumption. discriminate Hup.
  - rewrite update_position_nonzero in Hup by assumption.
    injection Hup as <- <-. auto.
Qed.

Lemma moved_on_orbit (dt : R) (b : CelestialBody) :
  on_orbit b (position (moved dt b)).
Proof.
  unfold on_orbit, norm2, moved. cbn.
  set (a := angle b + 2 * PI / orbital_period b * dt).
  pose proof (sin2_cos2 a) as Ha. pose proof (sin2_cos2 (tilt b)) as Ht.
  unfold Rsqr in Ha, Ht. split.
  - replace (distance b * cos a * (distance b * cos a)
             + distance b * sin a * cos (tilt b) * (distance b * sin a * cos (tilt b))
             + distance b * sin a * sin (tilt b) * (distance b * sin a * sin (tilt b)))
      with (distance b * distance b
            * (cos a * cos a
               + sin a * sin a * (sin (tilt b) * sin (tilt b) + cos (tilt b) * cos (tilt b))))
      by ring.
    rewrite Ht, Rmult_1_r, (Rplus_comm (cos a * cos a)), Ha. ring.
  - ring.
Qed.

(** X1: on idealised real arithmetic, the position [update_position]
    computes lies on the body's orbit: at distance [distance] from the
    origin and in the plane tilted by [tilt] about the x axis. *)
Theorem update_position_on_orbit (b b' : CelestialBody) (dt : R) (p : Np.vec3) :
  update_position b dt = Ok (b', p) ->
  norm2 p = distance b * distance b
  /\ Np.vy p * sin (tilt b) = Np.vz p * cos (tilt b)
  /\ position b' = p
  /\ constants b' = constants b.
Proof.
  intros Hup. apply update_position_Ok_inv in Hup as (_ & -> & ->).
  destruct (moved_on_orbit dt b) as [Hn Hp].
  split; [exact Hn |]. split; [exact Hp |]. split; reflexivity.
Qed.

Lemma update_position_on_orbit_witness :
  norm2 (position (moved 1 (CelestialBody_init
           ("Mercury"%string, 2440, 0.39, 88, "#8C7853"%string, 7.0) 0)))
  = 0.39 * 0.39.
Proof.
  apply (update_position_on_orbit
           (CelestialBody_init ("Mercury"%string, 2440, 0.39, 88, "#8C7853"%string, 7.0) 0)
           (moved 1 (CelestialBody_init
              ("Mercury"%string, 2440, 0.39, 88, "#8C7853"%string, 7.0) 0)) 1).
  apply update_position_nonzero. cbn. lra.
Defined.

(** X2: on idealised real arithmetic, with a time step of [k] whole
    orbital periods the position [update_position] computes is the point of
    the orbit at the old angle, and the angle has grown by [k] turns. *)
Theorem update_position_whole_periods (b : CelestialBody) (k : nat) :
  orbital_period b <> 0 ->
  exists b',
    update_position b (INR k * orbital_period b) = Ok (b', position b')
    /\ angle b' = angle b + 2 * INR k * PI
    /\ position b'
       = (distance b * cos (angle b),
          distance b * sin (angle b) * cos (tilt b),
          distance b * sin (angle b) * sin (tilt b)).
Proof.
  intros Hp. exists (moved (INR k * orbital_period b) b).
  split; [apply update_position_nonzero; exact Hp |].
  assert (Ha : angle b + 2 * PI / orbital_period b * (INR k * orbital_period b)
               = angle b + 2 * INR k * PI) by (field; exact Hp).
  unfold moved. cbn. rewrite Ha.
  split; [reflexivity |].
  rewrite cos_period, sin_period. reflexivity.
Qed.

Lemma update_position_whole_periods_witness :
  exists b',
    update_position
      (CelestialBody_init ("Earth"%string, 6371, 1.0, 365, "#4169E1"%string, 0.0) 0)
      (INR 2 * 365)
    = Ok (b', position b').
Proof.
  destruct (update_position_whole_periods
              (CelestialBody_init ("Earth"%string, 6371, 1.0, 365, "#4169E1"%string, 0.0) 0)
              2) as (b' & Hup & _).
  - cbn. lra.
  - exists b'. exact Hup.
Defined.

(** X3: two calls of [update_position] in a row, with time steps [dt1]
    and [dt2], leave the body and return the position of one call with
    time step [dt1 + dt2]. *)
Theorem update_position_compose (b b1 : CelestialBody) (dt1 dt2 : R)
    (p1 : Np.vec3) :
  update_position b dt1 = Ok (b1, p1) ->
  update_position b1 dt2 = update_position b (dt1 + dt2).
Proof.
  intros Hup. apply update_position_Ok_inv in Hup as (Hp & -> & _).
  rewrite !update_position_nonzero by exact Hp.
  assert (Ha : angle b + 2 * PI / orbital_period b * dt1
               + 2 * PI / orbital_period b * dt2
               = angle b + 2 * PI / orbital_period b * (dt1 + dt2))
    by (field; exact Hp).
  unfold moved. cbn. rewrite Ha. reflexivity.
Qed.

Lemma update_position_compose_witness :
  update_position
    (moved 1 (CelestialBody_init
       ("Earth"%string, 6371, 1.0, 365, "#4169E1"%string, 0.0) 0)) 2.5
  = update_position
      (CelestialBody_init ("Earth"%string, 6371, 1.0, 365, "#4169E1"%string, 0.0) 0)
      (1 + 2.5).
Proof.
  apply (update_position_compose _ _ 1 2.5
           (position (moved 1 (CelestialBody_init
              ("Earth"%string, 6371, 1.0, 365, "#4169E1"%string, 0.0) 0)))).
  apply update_position_nonzero. cbn. lra.
Defined.

(** *** [update] *)

Lemma update_loop_Ok_inv (dt : R) (cap : nat) (bs : list CelestialBody)
    (tr : gmap string (list Np.vec3))
    (r : list CelestialBody * gmap string (list Np.vec3)) :
  update_loop dt cap bs tr = Ok r ->
  Forall (fun b => orbital_period b <> 0) bs.
Proof.
  revert tr r. induction bs as [| b bs IH]; intros tr r Hr; [constructor |].
  cbn [update_loop] in Hr.
  destruct (Req_dec_T (orbital_period b) 0) as [Hz | Hnz].
  - rewrite update_position_zero in Hr by assumption. discriminate Hr.
  - rewrite update_position_nonzero in Hr by assumption. cbn [bind fst] in Hr.
    constructor; [exact Hnz |].
    destruct (update_loop dt cap bs
                (update_trail cap tr (moved dt b))) as [r' | e] eqn:Hrest;
      [| discriminate Hr].
    exact (IH _ _ Hrest).
Qed.

Lemma update_Ok_inv (self self' : SolarSystem) (frame : nat) :
  update self frame = Ok self' ->
  (paused self = true /\ self' = self)
  \/ (paused self = false
      /\ Forall (fun b => orbital_period b <> 0) (drop 1 (bodies self))
      /\ self' = stepped self).
Proof.
  intros Hup. destruct (paused self) eqn:Hp.
  - left. rewrite update_paused in Hup by assumption.
    injection Hup as <-. auto.
  - right. split; [reflexivity |].
    assert (Hall : Forall (fun b => orbital_period b <> 0) (drop 1 (bodies self))).
    { unfold update in Hup. rewrite Hp in Hup. cbn [negb] in Hup.
      destruct (update_loop (time_step self) (trail_length self)
                  (drop 1 (bodies self)) (trails self)) as [r | e] eqn:Hloop;
        [| discriminate Hup].
      exact (update_loop_Ok_inv _ _ _ _ _ Hloop). }
    split; [exact Hall |].
    rewrite update_unpaused in Hup by assumption. injection Hup as <-. reflexivity.
Qed.

Lemma periods_nonzero_or_zero (bs : list CelestialBody) :
  Forall (fun b => orbital_period b <> 0) bs
  \/ Exists (fun b => orbital_period b = 0) bs.
Proof.
  induction bs as [| b bs [Hall | Hex]].
  - left. constructor.
  - destruct (Req_dec_T (orbital_period b) 0) as [Hz | Hnz].
    + right. apply Exists_cons_hd. exact Hz.
    + left. constructor; assumption.
  - right. apply Exists_cons_tl. exact Hex.
Qed.

(** X4: [update] returns exactly when the system is paused or no body
    after the first has period zero; otherwise it raises the division by
    zero.  The period of the first body never matters. *)
Theorem update_returns_iff (self : SolarSystem) (frame : nat) :
  ((exists self', update self frame = Ok self')
   <-> paused self = true
       \/ Forall (fun b => orbital_period b <> 0) (drop 1 (bodies self)))
  /\ (update self frame = Raise ZeroDivisionError
      <-> paused self = false
          /\ Exists (fun b => orbital_period b = 0) (drop 1 (bodies self))).
Proof.
  split; split.
  - intros [self' Hup]. apply update_Ok_inv in Hup as [[Hp _] | (_ & Hall & _)]; auto.
  - intros [Hp | Hall].
    + exists self. apply update_paused. exact Hp.
    + destruct (paused self) eqn:Hp.
      * exists self. apply update_paused. exact Hp.
      * exists (stepped self). apply update_unpaused; assumption.
  - intros Hup. destruct (paused self) eqn:Hp.
    + rewrite update_paused in Hup by assumption. discriminate Hup.
    + split; [reflexivity |].
      destruct (periods_nonzero_or_zero (drop 1 (bodies self))) as [Hall | Hex];
        [| exact Hex].
      rewrite update_unpaused in Hup by assumption. discriminate Hup.
  - intros [Hp Hex]. apply update_unpaused_zero; assumption.
Qed.

(** X5: whenever [update] returns, it has changed nothing but angles,
    positions and trails: the time step, the flags, the scale mode and the
    capacity are the same, the first body is untouched, every body keeps its
    name, radius, distance, period, colour and tilt, and exactly the names
    that had a trail have one. *)
Theorem update_frame (self self' : SolarSystem) (frame : nat) :
  update self frame = Ok self' ->
  time_step self' = time_step self
  /\ paused self' = paused self
  /\ show_orbits self' = show_orbits self
  /\ show_labels self' = show_labels self
  /\ scale_mode self' = scale_mode self
  /\ trail_length self' = trail_length self
  /\ bodies self' !! 0%nat = bodies self !! 0%nat
  /\ constants <$> bodies self' = constants <$> bodies self
  /\ dom (trails self') = dom (trails self).
Proof.
  intros Hup.
  assert (Hcase : self' = self \/ self' = stepped self)
    by (apply update_Ok_inv in Hup as [[_ ->] | (_ & _ & ->)]; auto).
  destruct Hcase as [-> | ->].
  - repeat split; reflexivity.
  - destruct (stepped_same_frame self) as (H0 & Hc & _ & _ & Ht).
    do 6 (split; [reflexivity |]).
    split; [exact H0 |]. split; [exact Hc |].
    apply set_eq. intros k. rewrite !elem_of_dom. apply Ht.
Qed.

Lemma update_frame_witness :
  constants <$> bodies (stepped (SolarSystem_init "logarithmic" (fun _ => 0)))
  = constants <$> bodies (SolarSystem_init "logarithmic" (fun _ => 0)).
Proof.
  apply (update_frame (SolarSystem_init "logarithmic" (fun _ => 0))
           (stepped (SolarSystem_init "logarithmic" (fun _ => 0))) 0).
  apply update_unpaused; [reflexivity | apply init_healthy].
Defined.

(** *** Events *)

Lemma run_app (evs1 evs2 : list event) (self : SolarSystem) :
  run self (evs1 ++ evs2) = try! self' := run self evs1 in run self' evs2.
Proof.
  revert self. induction evs1 as [| ev evs1 IH]; intros self; [reflexivity |].
  cbn [app run]. destruct (handle self ev) as [s1 | e]; [| reflexivity].
  cbn [bind]. apply IH.
Qed.

Lemma run_frames_paused (frames : list nat) (self : SolarSystem) :
  paused self = true -> run self (DrawFrame <$> frames) = Ok self.
Proof.
  intros Hp. induction frames as [| frame frames IH]; [reflexivity |].
  cbn [fmap list_fmap run handle]. rewrite update_paused by assumption.
  cbn [bind]. exact IH.
Qed.

Lemma toggle_pause_twice (self : SolarSystem) :
  toggle_pause (toggle_pause self) = self.
Proof. destruct self. unfold toggle_pause. cbn. rewrite negb_involutive. reflexivity. Qed.

(** X6: pausing a running system, letting any number of frames pass and
    resuming gives back the very system that was paused: no angle,
    position, trail or setting has moved in between. *)
Theorem pause_frames_resume (self : SolarSystem) (frames : list nat) :
  paused self = false ->
  run self (PauseClicked :: (DrawFrame <$> frames) ++ [PauseClicked]) = Ok self.
Proof.
  intros Hp. cbn [run handle bind]. rewrite run_app.
  rewrite run_frames_paused by (cbn; rewrite Hp; reflexivity).
  cbn [bind run handle]. rewrite toggle_pause_twice. reflexivity.
Qed.

Lemma pause_frames_resume_witness :
  run (SolarSystem_init "logarithmic" (fun _ => 0))
      (PauseClicked :: (DrawFrame <$> [0; 1; 2]%nat) ++ [PauseClicked])
  = Ok (SolarSystem_init "logarithmic" (fun _ => 0)).
Proof.
  apply (pause_frames_resume (SolarSystem_init "logarithmic" (fun _ => 0))
           [0; 1; 2]%nat).
  reflexivity.
Defined.

Lemma update_returns_iff_witness :
  exists self', update (SolarSystem_init "logarithmic" (fun _ => 0)) 0 = Ok self'.
Proof.
  apply (proj2 (proj1 (update_returns_iff
                         (SolarSystem_init "logarithmic" (fun _ => 0)) 0))).
  right. apply init_healthy.
Defined.

Lemma frames_advance (frames : list nat) (self : SolarSystem) (i : nat)
    (b : CelestialBody) :
  healthy self ->
  paused self = false ->
  bodies self !! S i = Some b ->
  exists (self' : SolarSystem) (b' : CelestialBody),
    run self (DrawFrame <$> frames) = Ok self'
    /\ bodies self' !! S i = Some b'
    /\ constants b' = constants b
    /\ angle b'
       = angle b
         + INR (length frames) * (2 * PI / orbital_period b * time_step self).
Proof.
  revert self b. induction frames as [| frame frames IH]; intros self b Hh Hp Hb.
  - exists self, b. split; [reflexivity |]. split; [exact Hb |].
    split; [reflexivity |]. cbn. lra.
  - destruct (IH (stepped self) (moved (time_step self) b))
      as (self' & b' & Hrun & Hb' & Hc & Ha).
    + apply stepped_healthy. exact Hh.
    + exact Hp.
    + rewrite stepped_lookup, Hb. reflexivity.
    + exists self', b'. cbn [fmap list_fmap run handle].
      rewrite update_unpaused by (assumption || apply Hh). cbn [bind].
      split; [exact Hrun |]. split; [exact Hb' |]. split; [exact Hc |].
      rewrite Ha. cbn [length]. rewrite S_INR. cbn. lra.
Qed.

(** X7: on idealised real arithmetic, at any point of a session that is
    not paused, [n] more frames advance the angle of every body after the
    first by [n] times the angular velocity [2*pi / orbital_period] times
    the current time step. *)
Theorem frames_advance_angle (mode : string) (g : rng) (evs : list event)
    (self : SolarSystem) (frames : list nat) (i : nat) (b : CelestialBody) :
  run (SolarSystem_init mode g) evs = Ok self ->
  paused self = false ->
  bodies self !! S i = Some b ->
  exists (self' : SolarSystem) (b' : CelestialBody),
    run self (DrawFrame <$> frames) = Ok self'
    /\ bodies self' !! S i = Some b'
    /\ angle b'
       = angle b
         + INR (length frames) * (2 * PI / orbital_period b * time_step self).
Proof.
  intros Hrun Hp Hb.
  destruct (run_healthy evs _ (init_healthy mode g)) as (self1 & Hrun1 & Hh & _).
  rewrite Hrun in Hrun1. injection Hrun1 as <-.
  destruct (frames_advance frames self i b Hh Hp Hb) as (self' & b' & H1 & H2 & _ & H3).
  exists self', b'. auto.
Qed.

Lemma frames_advance_angle_witness :
  exists (self' : SolarSystem) (b' : CelestialBody),
    run (SolarSystem_init "logarithmic" (fun _ => 0)) (DrawFrame <$> [0; 1; 2]%nat)
    = Ok self'
    /\ bodies self' !! 3%nat = Some b'
    /\ angle b' = 2 * PI * 0 + INR 3 * (2 * PI / 365 * 1).
Proof.
  destruct (frames_advance_angle "logarithmic" (fun _ => 0) []
              (SolarSystem_init "logarithmic" (fun _ => 0)) [0; 1; 2]%nat 2
              (CelestialBody_init ("Earth"%string, 6371, 1.0, 365, "#4169E1"%string, 0.0) 0))
    as (self' & b' & Hrun & Hb' & Ha);
    [reflexivity | reflexivity | reflexivity |].
  exists self', b'. split; [exact Hrun |]. split; [exact Hb' |].
  rewrite Ha, angle_init. reflexivity.
Defined.

(** *** The visibility flags *)

Lemma handle_simulation_state (s1 s2 : SolarSystem) (ev : event) :
  simulation_state s1 = simulation_state s2 ->
  result_map simulation_state (handle s1 ev)
  = result_map simulation_state (handle s2 ev).
Proof.
  intros Heq. destruct s1, s2. unfold simulation_state in Heq. cbn in Heq.
  injection Heq as -> -> -> -> -> ->.
  destruct ev as [frame | | | | v]; try reflexivity.
  cbn [handle]. unfold update. cbn [paused time_step trail_length bodies trails].
  destruct paused1; cbn [negb]; [reflexivity |].
  destruct (update_loop _ _ _ _) as [r | e]; reflexivity.
Qed.

(** X8: the two visibility buttons never influence the simulation.  Runs
    from two systems that differ at most in [show_orbits] and [show_labels]
    agree on everything else (or raise alike) when the events of one are
    the events of the other without the clicks on those buttons. *)
Theorem visibility_clicks_do_not_interfere (evs : list event)
    (s1 s2 : SolarSystem) :
  simulation_state s1 = simulation_state s2 ->
  result_map simulation_state (run s1 evs)
  = result_map simulation_state
      (run s2 (List.filter (fun ev => negb (is_visibility ev)) evs)).
Proof.
  revert s1 s2. induction evs as [| ev evs IH]; intros s1 s2 Heq.
  - cbn. rewrite Heq. reflexivity.
  - destruct (is_visibility ev) eqn:Hvis.
    + cbn [List.filter]. rewrite Hvis. cbn [negb].
      destruct ev; try discriminate Hvis; cbn [run handle bind]; apply IH; exact Heq.
    + cbn [List.filter]. rewrite Hvis. cbn [negb run].
      pose proof (handle_simulation_state s1 s2 ev Heq) as Hstep.
      destruct (handle s1 ev) as [s1' | e1], (handle s2 ev) as [s2' | e2];
        cbn [result_map] in Hstep; try discriminate Hstep; cbn [bind].
      * apply IH. congruence.
      * exact Hstep.
Qed.

Lemma visibility_clicks_do_not_interfere_witness :
  result_map simulation_state
    (run (SolarSystem_init "artistic" (fun _ => 0))
       [OrbitsClicked; DrawFrame 0; LabelsClicked; DrawFrame 1])
  = result_map simulation_state
      (run (SolarSystem_init "artistic" (fun _ => 0)) [DrawFrame 0; DrawFrame 1]).
Proof.
  apply (visibility_clicks_do_not_interfere
           [OrbitsClicked; DrawFrame 0; LabelsClicked; DrawFrame 1]
           (SolarSystem_init "artistic" (fun _ => 0))
           (SolarSystem_init "artistic" (fun _ => 0))).
  reflexivity.
Defined.

(** *** Trails and orbits *)

Lemma Forall_push_trail (P : Np.vec3 -> Prop) (cap : nat) (t : list Np.vec3)
    (p : Np.vec3) :
  Forall P t -> P p -> Forall P (push_trail cap t p).
Proof.
  intros Ht Hp. unfold push_trail.
  assert (Hall : Forall P (t ++ [p])) by (apply Forall_app; auto).
  destruct (_ <? _)%nat; [| exact Hall].
  destruct (t ++ [p]); [exact Hall |]. cbn. inversion Hall; assumption.
Qed.

Lemma stepped_on_orbit (self : SolarSystem) :
  healthy self -> trails_on_orbit self -> trails_on_orbit (stepped self).
Proof.
  intros Hh Hinv i b' t' Hb' Ht'.
  rewrite stepped_lookup in Hb'.
  destruct (bodies self !! S i) as [b |] eqn:Hb; [| discriminate Hb'].
  injection Hb' as <-.
  unfold stepped in Ht'. cbn [trails set_bodies_trails] in Ht'.
  rewrite (update_trails_at _ _ _ i) in Ht'.
  - cbn [name moved set_motion] in Ht'.
    destruct (trails self !! name b) as [t |] eqn:Ht; [| discriminate Ht'].
    injection Ht' as <-.
    apply (Forall_push_trail (on_orbit b)).
    + exact (Hinv i b t Hb Ht).
    + apply moved_on_orbit.
  - rewrite fmap_name_moved. apply Hh.
  - rewrite list_lookup_fmap, lookup_drop. cbn [Nat.add]. rewrite Hb. reflexivity.
Qed.

Lemma run_on_orbit (evs : list event) (self self' : SolarSystem) :
  healthy self -> trails_on_orbit self ->
  run self evs = Ok self' -> trails_on_orbit self'.
Proof.
  revert self. induction evs as [| ev evs IH]; intros self Hh Hinv Hrun.
  - injection Hrun as <-. exact Hinv.
  - cbn [run] in Hrun.
    destruct (handle_healthy self ev Hh) as (s1 & Hs1 & Hh1 & _).
    rewrite Hs1 in Hrun. cbn [bind] in Hrun.
    apply (IH s1 Hh1); [| exact Hrun].
    destruct ev as [frame | | | | v]; cbn [handle] in Hs1;
      try (injection Hs1 as <-; exact Hinv).
    apply update_Ok_inv in Hs1 as [[_ ->] | (_ & _ & ->)];
      [exact Hinv | apply stepped_on_orbit; assumption].
Qed.

(** X9: on idealised real arithmetic, throughout a session every point
    stored in the trail of a body after the first lies on that body's
    orbit: at the body's distance from the origin and in its tilted orbital
    plane. *)
Theorem trail_points_on_orbit (mode : string) (g : rng) (evs : list event)
    (self : SolarSystem) (i : nat) (b : CelestialBody) (t : list Np.vec3)
    (p : Np.vec3) :
  run (SolarSystem_init mode g) evs = Ok self ->
  bodies self !! S i = Some b ->
  trails self !! name b = Some t ->
  p ∈ t ->
  norm2 p = distance b * distance b
  /\ Np.vy p * sin (tilt b) = Np.vz p * cos (tilt b).
Proof.
  intros Hrun Hb Ht Hp.
  assert (Hinv : trails_on_orbit self).
  { apply (run_on_orbit evs (SolarSystem_init mode g)); [apply init_healthy | | exact Hrun].
    intros j b0 t0 _ Ht0. apply init_trail_empty in Ht0. rewrite Ht0. constructor. }
  exact (proj1 (Forall_forall _ _) (Hinv i b t Hb Ht) p Hp).
Qed.

Lemma trail_points_on_orbit_witness :
  exists (self : SolarSystem) (b : CelestialBody),
    run (SolarSystem_init "artistic" (fun _ => 0)) [DrawFrame 0] = Ok self
    /\ bodies self !! 1%nat = Some b
    /\ trails self !! name b = Some [position b]
    /\ norm2 (position b) = distance b * distance b.
Proof.
  destruct (update_pushes_position (SolarSystem_init "artistic" (fun _ => 0)) 0 0
              (CelestialBody_init
                 ("Mercury"%string, 2440, 0.39, 88, "#8C7853"%string, 7.0) 0) [])
    as (self & b & Hup & _ & Hb & Htr);
    [apply init_healthy | reflexivity | reflexivity | reflexivity |].
  assert (Hrun : run (SolarSystem_init "artistic" (fun _ => 0)) [DrawFrame 0] = Ok self)
    by (cbn [run handle]; rewrite Hup; reflexivity).
  assert (Hname : name b = "Mercury"%string).
  { destruct (run_healthy [DrawFrame 0] _ (init_healthy "artistic" (fun _ => 0)))
      as (s1 & Hrun1 & _ & _ & Hc & _).
    rewrite Hrun in Hrun1. injection Hrun1 as <-.
    apply (f_equal (fun l => l !! 1%nat)) in Hc.
    rewrite !list_lookup_fmap, Hb in Hc. cbn in Hc. injection Hc as Hn _ _ _ _ _.
    exact Hn. }
  rewrite <- Hname in Htr.
  exists self, b. split; [exact Hrun |]. split; [exact Hb |]. split; [exact Htr |].
  apply (trail_points_on_orbit "artistic" (fun _ => 0) [DrawFrame 0] self 0 b
           [position b] (position b) Hrun Hb Htr).
  apply list_elem_of_here.
Defined.

(** *** [np.linspace] and the arrays built from it *)

Lemma length_linspace (start stop : R) (num : nat) :
  length (linspace start stop num) = num.
Proof.
  unfold linspace. case_decide.
  - rewrite length_insert, length_fmap, length_seq. reflexivity.
  - rewrite length_fmap, length_seq. reflexivity.
Qed.

Lemma linspace_first (start stop : R) (num : nat) :
  (0 < num)%nat -> linspace start stop num !! 0%nat = Some start.
Proof.
  intros Hn. unfold linspace.
  assert (Hy : forall f : nat -> R, f 0%nat = start ->
                 (f <$> seq 0 num) !! 0%nat = Some start).
  { intros f Hf. rewrite list_lookup_fmap, lookup_seq_lt by lia.
    cbn. rewrite Hf. reflexivity. }
  case_decide.
  - rewrite list_lookup_insert_ne by lia.
    apply Hy. case_decide; cbn; lra.
  - apply Hy. case_decide; cbn; lra.
Qed.

Lemma linspace_last (start stop : R) (num : nat) :
  (1 < num)%nat -> linspace start stop num !! (num - 1)%nat = Some stop.
Proof.
  intros Hn. unfold linspace. case_decide; [| lia].
  apply list_lookup_insert_eq. rewrite length_fmap, length_seq. lia.
Qed.

(** Between the ends the samples are evenly spaced. *)
Lemma linspace_lookup (start stop : R) (num i : nat) :
  (1 < num)%nat -> (i < num)%nat ->
  linspace start stop num !! i
  = Some (start + INR i * ((stop - start) / INR (num - 1))).
Proof.
  intros Hn Hi.
  destruct (decide (i = (num - 1)%nat)) as [-> | Hne].
  - rewrite linspace_last by assumption. f_equal. field.
    apply not_0_INR. lia.
  - unfold linspace. case_decide; [| lia].
    rewrite list_lookup_insert_ne by lia.
    rewrite list_lookup_fmap, lookup_seq_lt by lia. cbn.
    case_decide; [| lia]. f_equal. lra.
Qed.

Lemma entry_scale_shift_outer (k c : R) (a b : list R) (i j : nat) (ai bj : R) :
  a !! i = Some ai -> b !! j = Some bj ->
  entry (scale_shift k (outer a b) c) i j = Some (k * (ai * bj) + c).
Proof.
  intros Ha Hb. unfold entry, scale_shift, outer.
  rewrite !list_lookup_fmap, Ha. cbn.
  rewrite !list_lookup_fmap, Hb. reflexivity.
Qed.

Lemma shape_scale_shift_outer (k c : R) (a b : list R) (n m : nat) :
  length a = n -> length b = m ->
  length (scale_shift k (outer a b) c) = n
  /\ Forall (fun row => length row = m) (scale_shift k (outer a b) c).
Proof.
  intros Ha Hb. unfold scale_shift, outer. split.
  - rewrite !length_fmap. exact Ha.
  - apply Forall_fmap, Forall_fmap, Forall_forall. intros ai _. cbn.
    rewrite !length_fmap. exact Hb.
Qed.

(** X10: [create_sphere] returns three [resolution] by [resolution]
    arrays, and on idealised real arithmetic every vertex
    [(x[i][j], y[i][j], z[i][j])] lies on the sphere of the given radius
    around the given centre. *)
Theorem create_sphere_on_sphere (radius : R) (center : Np.vec3)
    (resolution i j : nat) :
  (i < resolution)%nat -> (j < resolution)%nat ->
  let '(xs, ys, zs) := create_sphere radius center resolution in
  (length xs = resolution /\ Forall (fun row => length row = resolution) xs)
  /\ (length ys = resolution /\ Forall (fun row => length row = resolution) ys)
  /\ (length zs = resolution /\ Forall (fun row => length row = resolution) zs)
  /\ exists x y z,
       entry xs i j = Some x /\ entry ys i j = Some y /\ entry zs i j = Some z
       /\ (x - Np.vx center) * (x - Np.vx center)
          + (y - Np.vy center) * (y - Np.vy center)
          + (z - Np.vz center) * (z - Np.vz center)
          = radius * radius.
Proof.
  intros Hi Hj. unfold create_sphere.
  set (u := linspace 0 (2 * PI) resolution).
  set (v := linspace 0 PI resolution).
  assert (Hlu : length u = resolution) by apply length_linspace.
  assert (Hlv : length v = resolution) by apply length_linspace.
  destruct (lookup_lt_is_Some_2 u i) as [ui Hui]; [lia |].
  destruct (lookup_lt_is_Some_2 v j) as [vj Hvj]; [lia |].
  split; [| split; [| split]].
  - apply shape_scale_shift_outer; rewrite length_fmap; assumption.
  - apply shape_scale_shift_outer; rewrite length_fmap; assumption.
  - apply shape_scale_shift_outer;
      [rewrite length_replicate | rewrite length_fmap]; assumption.
  - exists (radius * (cos ui * sin vj) + Np.vx center),
           (radius * (sin ui * sin vj) + Np.vy center),
           (radius * (1 * cos vj) + Np.vz center).
    split; [| split; [| split]].
    + apply entry_scale_shift_outer; rewrite list_lookup_fmap;
        [rewrite Hui | rewrite Hvj]; reflexivity.
    + apply entry_scale_shift_outer; rewrite list_lookup_fmap;
        [rewrite Hui | rewrite Hvj]; reflexivity.
    + apply entry_scale_shift_outer.
      * apply lookup_replicate_2. lia.
      * rewrite list_lookup_fmap, Hvj. reflexivity.
    + pose proof (sin2_cos2 ui) as Hu. pose proof (sin2_cos2 vj) as Hv.
      unfold Rsqr in Hu, Hv.
      replace ((radius * (cos ui * sin vj) + Np.vx center - Np.vx center)
               * (radius * (cos ui * sin vj) + Np.vx center - Np.vx center)
               + (radius * (sin ui * sin vj) + Np.vy center - Np.vy center)
                 * (radius * (sin ui * sin vj) + Np.vy center - Np.vy center)
               + (radius * (1 * cos vj) + Np.vz center - Np.vz center)
                 * (radius * (1 * cos vj) + Np.vz center - Np.vz center))
        with (radius * radius
              * ((sin ui * sin ui + cos ui * cos ui) * (sin vj * sin vj)
                 + cos vj * cos vj)) by ring.
      rewrite Hu, Rmult_1_l, Hv. ring.
Qed.

Lemma create_sphere_on_sphere_witness :
  length (fst (fst (create_sphere 1 (0, 0, 0) 20))) = 20%nat.
Proof.
  exact (proj1 (proj1 (create_sphere_on_sphere 1 (0, 0, 0) 20 3 5
                         ltac:(lia) ltac:(lia)))).
Defined.

(** *** The orbital paths of [draw_frame] *)

Lemma orbit_angle_first : linspace 0 (2 * PI) orbit_points !! 0%nat = Some 0.
Proof. apply linspace_first. unfold orbit_points. lia. Qed.

Lemma orbit_angle_last :
  linspace 0 (2 * PI) orbit_points !! 99%nat = Some (2 * PI).
Proof. apply (linspace_last 0 (2 * PI) 100). lia. Qed.

(** X11: the path drawn for a body has 100 points; on idealised real
    arithmetic each lies at the scaled distance of the body from the
    origin, in the body's tilted plane, and the path is closed, its first
    and last point both being [(scaled distance, 0, 0)]. *)
Theorem orbit_path_is_closed_circle (self : SolarSystem) (body : CelestialBody)
    (k : nat) :
  (k < 100)%nat ->
  let '(orbit_x, orbit_y, orbit_z) := orbit_path self body in
  let d := get_scaled_distance self (distance body) in
  length orbit_x = 100%nat /\ length orbit_y = 100%nat /\ length orbit_z = 100%nat
  /\ (exists x y z,
        orbit_x !! k = Some x /\ orbit_y !! k = Some y /\ orbit_z !! k = Some z
        /\ x * x + y * y + z * z = d * d
        /\ y * sin (tilt body) = z * cos (tilt body))
  /\ orbit_x !! 0%nat = Some d /\ orbit_x !! 99%nat = Some d
  /\ orbit_y !! 0%nat = Some 0 /\ orbit_y !! 99%nat = Some 0
  /\ orbit_z !! 0%nat = Some 0 /\ orbit_z !! 99%nat = Some 0.
Proof.
  intros Hk. unfold orbit_path. cbn zeta.
  set (d := get_scaled_distance self (distance body)).
  set (angles := linspace 0 (2 * PI) orbit_points).
  assert (Hlen : length angles = 100%nat) by apply length_linspace.
  rewrite !length_fmap, Hlen.
  do 3 (split; [reflexivity |]).
  split.
  - destruct (lookup_lt_is_Some_2 angles k) as [a Ha]; [lia |].
    exists (d * cos a), (d * sin a * cos (tilt body)), (d * sin a * sin (tilt body)).
    rewrite !list_lookup_fmap, Ha. cbn.
    do 3 (split; [reflexivity |]).
    pose proof (sin2_cos2 a) as Hs. pose proof (sin2_cos2 (tilt body)) as Ht.
    unfold Rsqr in Hs, Ht. split; [| ring].
    replace (d * cos a * (d * cos a)
             + d * sin a * cos (tilt body) * (d * sin a * cos (tilt body))
             + d * sin a * sin (tilt body) * (d * sin a * sin (tilt body)))
      with (d * d * (cos a * cos a
                     + sin a * sin a
                       * (sin (tilt body) * sin (tilt body)
                          + cos (tilt body) * cos (tilt body)))) by ring.
    rewrite Ht, Rmult_1_r, (Rplus_comm (cos a * cos a)), Hs. ring.
  - rewrite !list_lookup_fmap.
    unfold angles. rewrite orbit_angle_first, orbit_angle_last. cbn.
    rewrite cos_0, sin_0, cos_2PI, sin_2PI.
    repeat split; f_equal; ring.
Qed.

Lemma orbit_path_is_closed_circle_witness :
  fst (fst (orbit_path (SolarSystem_init "realistic" (fun _ => 0))
              (CelestialBody_init
                 ("Earth"%string, 6371, 1.0, 365, "#4169E1"%string, 0.0) 0)))
    !! 0%nat
  = Some (get_scaled_distance (SolarSystem_init "realistic" (fun _ => 0)) 1.0).
Proof.
  exact (proj1 (proj2 (proj2 (proj2 (proj2
           (orbit_path_is_closed_circle
              (SolarSystem_init "realistic" (fun _ => 0))
              (CelestialBody_init
                 ("Earth"%string, 6371, 1.0, 365, "#4169E1"%string, 0.0) 0)
              7 ltac:(lia))))))).
Defined.

(** *** The scale modes, again *)

Lemma pow_lt (x1 x2 y : R) :
  0 < y -> 0 <= x1 -> x1 < x2 -> Np.pow x1 y < Np.pow x2 y.
Proof.
  intros Hy H1 H12.
  destruct (Req_dec_T x1 0) as [-> | Hnz1].
  - rewrite pow_0. apply pow_positive. lra.
  - unfold Np.pow.
    destruct (Req_dec_T x1 0); [contradiction |].
    destruct (Req_dec_T x2 0); [lra |].
    apply Rlt_Rpower_l; lra.
Qed.

Lemma get_scaled_distance_0 (self : SolarSystem) : get_scaled_distance self 0 = 0.
Proof.
  unfold get_scaled_distance. repeat case_decide; try reflexivity.
  - destruct (Req_dec_T 0 0); [reflexivity | lra].
  - rewrite pow_0. lra.
Qed.

Lemma get_scaled_distance_nonneg (self : SolarSystem) (d : R) :
  0 <= d -> 0 <= get_scaled_distance self d.
Proof.
  intros Hd. rewrite <- (get_scaled_distance_0 self).
  apply get_scaled_distance_mono; lra.
Qed.

(** X12: on idealised real arithmetic, whatever the scale mode, both
    scaling functions are strictly increasing, the radius scaling on
    positive radii and the distance scaling on non-negative distances, and
    the distance 0 is scaled to 0. *)
Theorem scaling_strictly_increasing (self : SolarSystem) :
  (forall r1 r2, 0 < r1 -> r1 < r2 ->
     get_scaled_radius self r1 < get_scaled_radius self r2)
  /\ (forall d1 d2, 0 <= d1 -> d1 < d2 ->
        get_scaled_distance self d1 < get_scaled_distance self d2)
  /\ get_scaled_distance self 0 = 0.
Proof.
  split; [| split; [| apply get_scaled_distance_0]].
  - intros r1 r2 Hpos Hlt. unfold get_scaled_radius.
    repeat case_decide; try lra.
    pose proof (log10_lt r1 r2 Hpos Hlt). lra.
  - intros d1 d2 Hpos Hlt. unfold get_scaled_distance.
    repeat case_decide; try lra.
    + destruct (Req_dec_T d1 0) as [-> | Hnz1];
        destruct (Req_dec_T d2 0) as [-> | Hnz2]; try lra.
      * pose proof (log10_lt 1 (d2 * 10 + 1)) as Hlog.
        rewrite log10_1 in Hlog. lra.
      * pose proof (log10_lt (d1 * 10 + 1) (d2 * 10 + 1)) as Hlog. lra.
    + pose proof (pow_lt d1 d2 0.7). lra.
Qed.

Lemma scaling_strictly_increasing_witness :
  get_scaled_distance (SolarSystem_init "artistic" (fun _ => 0)) 0.39
  < get_scaled_distance (SolarSystem_init "artistic" (fun _ => 0)) 0.72.
Proof.
  apply (proj1 (proj2 (scaling_strictly_increasing
                         (SolarSystem_init "artistic" (fun _ => 0))))); lra.
Defined.

(** *** Drawn planets and drawn paths *)

Lemma get_scaled_distance_ext (s1 s2 : SolarSystem) (d : R) :
  scale_mode s1 = scale_mode s2 ->
  get_scaled_distance s1 d = get_scaled_distance s2 d.
Proof. intros Hm. unfold get_scaled_distance. rewrite Hm. reflexivity. Qed.

Lemma scale_ratio_realistic (self : SolarSystem) :
  scale_mode self = "realistic"%string -> scale_ratio self = 1.
Proof.
  intros Hm. unfold scale_ratio, get_scaled_distance. rewrite Hm.
  case_decide; [lra | congruence].
Qed.

(** X13: in the realistic mode a planet is drawn on its drawn path: the
    display position of the position computed by [update_position] is the
    point of the path's circle at the planet's angle. *)
Theorem realistic_planet_on_its_path (self : SolarSystem)
    (b b' : CelestialBody) (dt : R) (p : Np.vec3) :
  scale_mode self = "realistic"%string ->
  update_position b dt = Ok (b', p) ->
  let d := get_scaled_distance self (distance b') in
  scaled_pos self p
  = (d * cos (angle b'),
     d * sin (angle b') * cos (tilt b'),
     d * sin (angle b') * sin (tilt b')).
Proof.
  intros Hm Hup. apply update_position_Ok_inv in Hup as (_ & -> & ->).
  unfold scaled_pos. rewrite scale_ratio_realistic by exact Hm.
  unfold get_scaled_distance. rewrite Hm.
  case_decide; [| congruence].
  unfold Np.vmul, Np.vx, Np.vy, Np.vz. cbn.
  rewrite !Rmult_1_r. reflexivity.
Qed.

Lemma realistic_planet_on_its_path_witness :
  scaled_pos (SolarSystem_init "realistic" (fun _ => 0))
    (position (moved 1 (CelestialBody_init
       ("Mars"%string, 3390, 1.52, 687, "#CD5C5C"%string, 1.9) 0)))
  = position (moved 1 (CelestialBody_init
       ("Mars"%string, 3390, 1.52, 687, "#CD5C5C"%string, 1.9) 0)).
Proof.
  apply (realistic_planet_on_its_path
           (SolarSystem_init "realistic" (fun _ => 0))
           (CelestialBody_init ("Mars"%string, 3390, 1.52, 687, "#CD5C5C"%string, 1.9) 0)
           (moved 1 (CelestialBody_init
              ("Mars"%string, 3390, 1.52, 687, "#CD5C5C"%string, 1.9) 0)) 1).
  - reflexivity.
  - apply update_position_nonzero. cbn. lra.
Defined.

Lemma norm2_vmul_uniform (p : Np.vec3) (k : R) :
  norm2 (Np.vmul p (k, k, k)) = k * k * norm2 p.
Proof. destruct p as [[x y] z]. unfold norm2, Np.vmul, Np.vx, Np.vy, Np.vz. cbn. ring. Qed.

Lemma pow_fixed_point (d y : R) :
  0 < d -> y <> 1 -> Np.pow d y = d -> d = 1.
Proof.
  intros Hd Hy Heq. unfold Np.pow in Heq.
  destruct (Req_dec_T d 0); [lra |].
  unfold Rpower in Heq. rewrite <- (exp_ln d Hd) in Heq at 2.
  apply exp_inv in Heq.
  destruct (Req_dec_T d 1) as [H1 | Hne]; [exact H1 |].
  pose proof (ln_neq_0 d Hne Hd) as Hln.
  exfalso. apply Hln.
  assert (Hz : (y - 1) * ln d = 0) by lra.
  apply Rmult_integral in Hz. destruct Hz as [Hz | Hz]; [lra | exact Hz].
Qed.

(** X14: on idealised real arithmetic, in the artistic mode a planet is
    drawn at 5 times its distance from the origin, while its path is drawn
    with radius 5 times the distance to the power 0.7; for a positive
    distance other than 1 the two differ. *)
Theorem artistic_planet_off_its_path (self : SolarSystem)
    (b b' : CelestialBody) (dt : R) (p : Np.vec3) :
  scale_mode self = "artistic"%string ->
  update_position b dt = Ok (b', p) ->
  0 < distance b ->
  distance b <> 1 ->
  let d := get_scaled_distance self (distance b) in
  norm2 (scaled_pos self p) = (5 * distance b) * (5 * distance b)
  /\ d = Np.pow (distance b) 0.7 * 5
  /\ norm2 (scaled_pos self p) <> d * d.
Proof.
  intros Hm Hup Hpos Hne. cbn zeta.
  apply update_position_Ok_inv in Hup as (_ & _ & ->).
  destruct (moved_on_orbit dt b) as [Hnorm _].
  assert (Hn : norm2 (scaled_pos self (position (moved dt b)))
               = 5 * distance b * (5 * distance b)).
  { unfold scaled_pos. rewrite scale_ratio_artistic by exact Hm.
    rewrite norm2_vmul_uniform, Hnorm. ring. }
  assert (Hd : get_scaled_distance self (distance b) = Np.pow (distance b) 0.7 * 5).
  { apply get_scaled_distance_else. rewrite Hm. intros Hin.
    rewrite !elem_of_cons, elem_of_nil in Hin.
    destruct Hin as [Heq | [Heq | []]]; discriminate Heq. }
  split; [exact Hn |]. split; [exact Hd |].
  rewrite Hn, Hd. intros Heq.
  assert (Hp : 0 < Np.pow (distance b) 0.7) by (apply pow_positive; lra).
  apply Hne, (pow_fixed_point (distance b) 0.7); [exact Hpos | lra |].
  nra.
Qed.

Lemma artistic_planet_off_its_path_witness :
  norm2 (scaled_pos (SolarSystem_init "artistic" (fun _ => 0))
           (position (moved 1 (CelestialBody_init
              ("Mars"%string, 3390, 1.52, 687, "#CD5C5C"%string, 1.9) 0))))
  <> get_scaled_distance (SolarSystem_init "artistic" (fun _ => 0)) 1.52
     * get_scaled_distance (SolarSystem_init "artistic" (fun _ => 0)) 1.52.
Proof.
  apply (artistic_planet_off_its_path
           (SolarSystem_init "artistic" (fun _ => 0))
           (CelestialBody_init ("Mars"%string, 3390, 1.52, 687, "#CD5C5C"%string, 1.9) 0)
           (moved 1 (CelestialBody_init
              ("Mars"%string, 3390, 1.52, 687, "#CD5C5C"%string, 1.9) 0)) 1).
  - reflexivity.
  - apply update_position_nonzero. cbn. lra.
  - cbn. lra.
  - cbn. lra.
Defined.

(** *** [max_distance] and the plot limits *)

Lemma fold_max_spec (rest : list R) (x : R) :
  let m := fold_left (fun m y => if Rlt_dec m y then y else m) rest x in
  x <= m /\ Forall (fun y => y <= m) rest /\ m ∈ x :: rest.
Proof.
  revert x. induction rest as [| y rest IH]; intros x; cbn zeta.
  - cbn. split; [lra |]. split; [constructor | apply list_elem_of_here].
  - cbn [fold_left].
    destruct (IH (if Rlt_dec x y then y else x)) as (Hle & Hall & Hin).
    cbn zeta in Hle, Hall, Hin.
    set (m := fold_left (fun m y => if Rlt_dec m y then y else m) rest
                (if Rlt_dec x y then y else x)) in *.
    destruct (Rlt_dec x y) as [Hlt | Hge].
    + split; [lra |]. split; [constructor; [lra | exact Hall] |].
      apply elem_of_cons in Hin. destruct Hin as [-> | Hin].
      * apply list_elem_of_further, list_elem_of_here.
      * do 2 apply list_elem_of_further. exact Hin.
    + split; [lra |]. split; [constructor; [lra | exact Hall] |].
      apply elem_of_cons in Hin. destruct Hin as [-> | Hin].
      * apply list_elem_of_here.
      * do 2 apply list_elem_of_further. exact Hin.
Qed.

Lemma py_max_spec (l : list R) (m : R) :
  py_max l = Some m -> m ∈ l /\ Forall (fun y => y <= m) l.
Proof.
  destruct l as [| x rest]; [discriminate |].
  cbn [py_max]. intros Hm. injection Hm as <-.
  destruct (fold_max_spec rest x) as (Hle & Hall & Hin). cbn zeta in *.
  split; [exact Hin |]. constructor; assumption.
Qed.

Lemma init_body_geometry (d : body_data) (u : R) :
  d ∈ bodies_data ->
  0 <= distance (CelestialBody_init d u)
  /\ 0 <= tilt (CelestialBody_init d u) <= 7 * PI / 180.
Proof.
  pose proof PI_RGT_0 as Hpi. unfold bodies_data. intros Hin.
  repeat (apply elem_of_cons in Hin; destruct Hin as [-> | Hin];
          [cbn [CelestialBody_init distance tilt]; unfold Np.radians; lra |]).
  apply elem_of_nil in Hin. contradiction.
Qed.

Lemma init_bodies_geometry (mode : string) (g : rng) :
  Forall (fun b => 0 <= distance b /\ 0 <= tilt b <= 7 * PI / 180)
    (bodies (SolarSystem_init mode g)).
Proof.
  unfold SolarSystem_init. rewrite bodies_init_with.
  apply Forall_lookup. intros i b Hb.
  apply list_lookup_imap_Some in Hb as (d & Hd & ->).
  apply init_body_geometry. apply list_elem_of_lookup_2 in Hd. exact Hd.
Qed.

Lemma sin_small_tilt (t : R) : 0 <= t <= 7 * PI / 180 -> 0 <= sin t <= 1 / 2.
Proof.
  intros [H0 H7]. pose proof PI_RGT_0 as Hpi. pose proof PI_4 as H4.
  split.
  - apply sin_ge_0; lra.
  - destruct (Req_dec_T t 0) as [-> | Hnz].
    + rewrite sin_0. lra.
    + pose proof (sin_lt_x t) as Hs. lra.
Qed.

Lemma max_distance_init (mode : string) (g : rng) :
  exists m, max_distance (SolarSystem_init mode g) = Some m.
Proof.
  unfold max_distance, SolarSystem_init. rewrite bodies_init_with.
  unfold bodies_data. cbn [imap fmap list_fmap py_max]. eexists. reflexivity.
Qed.

(** X15: [max_distance], computed when the window is set up, is the largest
    scaled distance of the bodies, and every point of every orbital path
    drawn in any later frame lies within the plot limits: within 1.2 times
    [max_distance] in x and y and within 0.5 times [max_distance] in z. *)
Theorem orbit_paths_within_limits (mode : string) (g : rng) (evs : list event)
    (self : SolarSystem) (m : R) (i k : nat) (body : CelestialBody)
    (x y z : R) :
  max_distance (SolarSystem_init mode g) = Some m ->
  run (SolarSystem_init mode g) evs = Ok self ->
  bodies self !! i = Some body ->
  fst (fst (orbit_path self body)) !! k = Some x ->
  snd (fst (orbit_path self body)) !! k = Some y ->
  snd (orbit_path self body) !! k = Some z ->
  get_scaled_distance self (distance body) <= m
  /\ - m * 1.2 <= x <= m * 1.2
  /\ - m * 1.2 <= y <= m * 1.2
  /\ - m * 0.5 <= z <= m * 0.5.
Proof.
  intros Hmax Hrun Hbody Hx Hy Hz.
  destruct (run_healthy evs _ (init_healthy mode g))
    as (self1 & Hrun1 & _ & _ & Hc & _ & Hmode & _).
  rewrite Hrun in Hrun1. injection Hrun1 as <-.
  (* the body has the constants of the body constructed at its place *)
  apply (f_equal (fun l => l !! i)) in Hc.
  rewrite !list_lookup_fmap, Hbody in Hc.
  destruct (bodies (SolarSystem_init mode g) !! i) as [b0 |] eqn:Hb0;
    cbn [fmap option_fmap option_map] in Hc; [| discriminate Hc].
  unfold constants in Hc. injection Hc as _ _ Hdist _ _ Htilt.
  pose proof (proj1 (Forall_lookup _ _) (init_bodies_geometry mode g) i b0 Hb0)
    as [Hd0 Ht0].
  rewrite <- Hdist in Hd0. rewrite <- Htilt in Ht0.
  set (d := get_scaled_distance self (distance body)).
  assert (Hdpos : 0 <= d) by (apply get_scaled_distance_nonneg; exact Hd0).
  assert (Hdm : d <= m).
  { apply py_max_spec in Hmax as [_ Hall].
    unfold d. rewrite (get_scaled_distance_ext self (SolarSystem_init mode g))
      by exact Hmode.
    rewrite Hdist.
    apply (proj1 (Forall_lookup _ _) Hall i).
    rewrite list_lookup_fmap, Hb0. reflexivity. }
  unfold orbit_path in Hx, Hy, Hz. cbn [fst snd] in Hx, Hy, Hz.
  apply list_lookup_fmap_Some in Hx as (a & -> & Ha).
  apply list_lookup_fmap_Some in Hy as (a' & -> & Ha').
  apply list_lookup_fmap_Some in Hz as (a'' & -> & Ha'').
  fold d.
  pose proof (COS_bound a) as Hcos.
  pose proof (SIN_bound a') as Hsin'. pose proof (SIN_bound a'') as Hsin''.
  pose proof (COS_bound (tilt body)) as Hct.
  pose proof (sin_small_tilt (tilt body) Ht0) as Hst.
  split; [exact Hdm |].
  split; [nra |]. split.
  - assert (-1 <= sin a' * cos (tilt body) <= 1) by nra.
    rewrite Rmult_assoc. nra.
  - assert (-1 / 2 <= sin a'' * sin (tilt body) <= 1 / 2) by nra.
    rewrite Rmult_assoc. nra.
Qed.

Lemma orbit_paths_within_limits_witness :
  exists m,
    max_distance (SolarSystem_init "logarithmic" (fun _ => 0)) = Some m
    /\ get_scaled_distance (SolarSystem_init "logarithmic" (fun _ => 0)) 30.07 <= m.
Proof.
  destruct (max_distance_init "logarithmic" (fun _ => 0)) as [m Hm].
  exists m. split; [exact Hm |].
  assert (Hx : fst (fst (orbit_path (SolarSystem_init "logarithmic" (fun _ => 0))
                 (CelestialBody_init
                    ("Neptune"%string, 24622, 30.07, 60190, "#4169E1"%string, 1.8) 0)))
               !! 0%nat
               = Some (get_scaled_distance
                         (SolarSystem_init "logarithmic" (fun _ => 0)) 30.07 * cos 0)).
  { unfold orbit_path. cbn [fst snd].
    rewrite list_lookup_fmap, orbit_angle_first. reflexivity. }
  assert (Hy : snd (fst (orbit_path (SolarSystem_init "logarithmic" (fun _ => 0))
                 (CelestialBody_init
                    ("Neptune"%string, 24622, 30.07, 60190, "#4169E1"%string, 1.8) 0)))
               !! 0%nat
               = Some (get_scaled_distance
                         (SolarSystem_init "logarithmic" (fun _ => 0)) 30.07
                       * sin 0 * cos (Np.radians 1.8))).
  { unfold orbit_path. cbn [fst snd].
    rewrite list_lookup_fmap, orbit_angle_first. reflexivity. }
  assert (Hz : snd (orbit_path (SolarSystem_init "logarithmic" (fun _ => 0))
                 (CelestialBody_init
                    ("Neptune"%string, 24622, 30.07, 60190, "#4169E1"%string, 1.8) 0))
               !! 0%nat
               = Some (get_scaled_distance
                         (SolarSystem_init "logarithmic" (fun _ => 0)) 30.07
                       * sin 0 * sin (Np.radians 1.8))).
  { unfold orbit_path. cbn [fst snd].
    rewrite list_lookup_fmap, orbit_angle_first. reflexivity. }
  exact (proj1 (orbit_paths_within_limits "logarithmic" (fun _ => 0) []
                  (SolarSystem_init "logarithmic" (fun _ => 0)) m 8 0
                  (CelestialBody_init
                     ("Neptune"%string, 24622, 30.07, 60190, "#4169E1"%string, 1.8) 0)
                  _ _ _ Hm eq_refl eq_refl Hx Hy Hz)).
Defined.

(** *** Which names get a trail *)

Lemma initialize_loop_lookup (g : rng) (data : list body_data) (k : nat)
    (bs : list CelestialBody) (tr : gmap string (list Np.vec3)) (key : string) :
  snd (initialize_loop g k data bs tr) !! key
  = if decide (key ∈ data_name <$> data /\ key <> "Sun"%string)
    then Some [] else tr !! key.
Proof.
  revert k bs tr. induction data as [| d data IH]; intros k bs tr.
  - cbn. case_decide as Hc; [| reflexivity].
    destruct Hc as [Hin _]. apply elem_of_nil in Hin. contradiction.
  - cbn [initialize_loop]. rewrite IH, name_init, fmap_cons.
    destruct (decide (key ∈ data_name <$> data /\ key <> "Sun"%string))
      as [[Hin Hne] | Hnot].
    + rewrite decide_True; [reflexivity |].
      split; [apply list_elem_of_further; exact Hin | exact Hne].
    + destruct (decide (data_name d <> "Sun"%string)) as [Hd | Hd].
      * destruct (decide (key = data_name d)) as [-> | Hkd].
        -- rewrite lookup_insert_eq. rewrite decide_True; [reflexivity |].
           split; [apply list_elem_of_here | exact Hd].
        -- rewrite lookup_insert_ne by congruence.
           rewrite decide_False; [reflexivity |].
           intros [Hin Hne]. apply Hnot. split; [| exact Hne].
           apply elem_of_cons in Hin. destruct Hin as [Heq | Hin];
             [contradiction | exact Hin].
      * rewrite decide_False; [reflexivity |].
        intros [Hin Hne]. apply Hnot. split; [| exact Hne].
        apply elem_of_cons in Hin. destruct Hin as [Heq | Hin]; [| exact Hin].
        exfalso. apply Hd. rewrite <- Heq. exact Hne.
Qed.

(** X16: whatever the table, the constructor creates an empty trail for
    exactly the names in the table other than 'Sun', wherever they stand
    in the table, and for no other name. *)
Theorem trails_created_for_names_but_sun (data : list body_data)
    (mode : string) (g : rng) (key : string) :
  trails (SolarSystem_init_with data mode g) !! key
  = if decide (key ∈ data_name <$> data /\ key <> "Sun"%string)
    then Some [] else None.
Proof.
  rewrite trails_init_with, initialize_loop_lookup, lookup_empty. reflexivity.
Qed.
